(** * folly/io/async/Request.cpp: RequestData reference counts, the
      RequestContext data store and the context switch.

    The development follows the source file function by function.  Locks
    ([state_.ulock()], [rlock()], [wlock()]) serialise the sections they
    guard; the model is sequential, so that each locked section is one
    step.  Virtual calls ([onSet], [onUnset]) and reference-count updates
    are recorded, in program order, in a trace of events. *)

From Stdlib Require Import ZArith.
From stdpp Require Import base decidable option list strings gmap fin_maps sorting.

#[local] Set Warnings "-clear-no-such-hyp".

(** ** Objects and pointers *)

(** The address of a [RequestData] object; the null pointer is [None] in an
    [option]. *)
Definition ptr := positive.

(** A non-null pointer to a [RequestData] as the store sees the object: its
    address and the answer of its virtual [hasCallback()]. *)
Record RequestData : Type := mkRequestData {
  addr : ptr;
  hasCallback : bool
}.

#[global] Instance RequestData_eq_dec : EqDecision RequestData.
Proof. solve_decision. Defined.

(** A [RequestData::SharedPtr], a [std::unique_ptr<RequestData>] or a raw
    [RequestData*]: null or a pointer to an object. *)
Abbreviation handle := (option RequestData).

(** ** Events *)

Inductive event : Type :=
  | OnSet (p : ptr)              (* p->onSet() *)
  | OnUnset (p : ptr)            (* p->onUnset() *)
  | KeepAliveInc (p : ptr)       (* constructPtr(p), p non-null *)
  | KeepAliveDec (p : ptr)       (* DestructPtr()(p), p non-null *)
  | Warning (val : string)       (* LOG_FIRST_N(WARNING, 1) actually logging *)
  | StaticCtxAssign (c : option positive) (* staticCtx = c *)
  | Delete (p : ptr).            (* a unique_ptr destroyed while owning p *)

#[global] Instance event_eq_dec : EqDecision event.
Proof. solve_decision. Defined.

#[global] Instance OnSet_inj : Inj (=) (=) OnSet.
Proof. by intros ?? [= ?]. Qed.

#[global] Instance OnUnset_inj : Inj (=) (=) OnUnset.
Proof. by intros ?? [= ?]. Qed.

(** The callbacks among the events of a trace. *)
Definition is_callback (e : event) : bool :=
  match e with
  | OnSet _ | OnUnset _ => true
  | _ => false
  end.

Definition callbacks (t : list event) : list event :=
  List.filter is_callback t.

(** Number of occurrences of an event in a trace. *)
Definition occurrences (e : event) (t : list event) : nat :=
  length (List.filter (λ e', bool_decide (e' = e)) t).

(** ** [std::set<RequestData*>]

    An ordered set of addresses: the list of its elements in increasing
    order, which is the order in which the container is iterated. *)

Fixpoint set_insert (p : ptr) (s : list ptr) : list ptr :=
  match s with
  | [] => [p]
  | q :: s' =>
      if (p <? q)%positive then p :: s
      else if (p =? q)%positive then s
      else q :: set_insert p s'
  end.

Fixpoint set_erase (p : ptr) (s : list ptr) : list ptr :=
  match s with
  | [] => []
  | q :: s' =>
      if (p <? q)%positive then s
      else if (p =? q)%positive then s'
      else q :: set_erase p s'
  end.

(** The class invariant of the container. *)
Definition is_set (s : list ptr) : Prop := StronglySorted Pos.lt s.

(** ** Reference counting of one object (lines 27-47) *)

Module KeepAlive.

Local Open Scope Z_scope.

(** The part of a [RequestData] the two functions touch: the counter, and
    how many times [delete ptr] has been executed on the object.

    Modelled from the spec: the declaration of [keepAliveCounter_] is in
    Request.h, which is not part of the source at hand; the spec describes
    an atomic reference counter initialised to zero at construction.  It is
    taken as an integer, without a bound.  [DCHECK] is taken as checked. *)
Record object : Type := mkObject {
  keepAliveCounter_ : Z;
  deleted : nat
}.

(** A freshly constructed object: the counter starts at zero. *)
Definition constructed : object :=
  {| keepAliveCounter_ := 0; deleted := 0%nat |}.

Inductive outcome : Type :=
  | Ok (o : object)
  | DCheckFailed.

(** [fetch_add] and [fetch_sub] return the value before the update. *)
Definition fetch_add (o : object) (n : Z) : Z * object :=
  (keepAliveCounter_ o,
   {| keepAliveCounter_ := keepAliveCounter_ o + n; deleted := deleted o |}).

Definition fetch_sub (o : object) (n : Z) : Z * object :=
  (keepAliveCounter_ o,
   {| keepAliveCounter_ := keepAliveCounter_ o - n; deleted := deleted o |}).

(** [RequestData::DestructPtr::operator()] on a non-null pointer. *)
Definition DestructPtr (o : object) : outcome :=
  let '(keepAliveCounter, o1) := fetch_sub o 1 in
  if keepAliveCounter >? 0 then
    if keepAliveCounter =? 1 then
      Ok {| keepAliveCounter_ := keepAliveCounter_ o1;
            deleted := S (deleted o1) |}
    else Ok o1
  else DCheckFailed.

(** [RequestData::constructPtr] on a non-null pointer. *)
Definition constructPtr (o : object) : outcome :=
  let '(keepAliveCounter, o1) := fetch_add o 1 in
  if keepAliveCounter >=? 0 then Ok o1 else DCheckFailed.

Inductive op : Type := Acquire | Release.

#[global] Instance op_eq_dec : EqDecision op.
Proof. solve_decision. Defined.

Definition step (o : object) (x : op) : outcome :=
  match x with
  | Acquire => constructPtr o
  | Release => DestructPtr o
  end.

(** A sequence of acquires and releases on one object; a failed [DCHECK]
    stops the program. *)
Fixpoint run (o : object) (t : list op) : outcome :=
  match t with
  | [] => Ok o
  | x :: t' =>
      match step o x with
      | Ok o' => run o' t'
      | DCheckFailed => DCheckFailed
      end
  end.

Definition acquires (t : list op) : Z :=
  Z.of_nat (length (List.filter (λ x, bool_decide (x = Acquire)) t)).
Definition releases (t : list op) : Z :=
  Z.of_nat (length (List.filter (λ x, bool_decide (x = Release)) t)).

(** Every release is preceded by strictly more acquires than releases. *)
Definition releases_covered (t : list op) : Prop :=
  ∀ n, t !! n = Some Release →
    releases (take n t) < acquires (take n t).

(** No acquire other than the first operation finds the counter at
    zero. *)
Definition acquires_covered (t : list op) : Prop :=
  ∀ n, t !! n = Some Acquire → n ≠ 0%nat →
    releases (take n t) < acquires (take n t).

(** Whether executing [x] on [o] reaches [delete ptr]. *)
Definition deletes (o : object) (x : op) : bool :=
  match x with
  | Release => keepAliveCounter_ o =? 1
  | Acquire => false
  end.

End KeepAlive.

(** ** The state of a context

    Modelled from the spec: the declaration of the [State] behind [state_]
    is in Request.h, which is not part of the source at hand.  The spec
    gives it two fields: [entries], from string keys to attached data or
    the null marker, and [callbackSet], the set of identities of the
    entries with a callback; the source names them [requestData_] and
    [callbackData_] and walks the second as a [std::set<RequestData*>]. *)

Record State : Type := mkState {
  requestData_ : gmap string handle;
  callbackData_ : list ptr
}.

Definition emptyState : State :=
  {| requestData_ := ∅; callbackData_ := [] |}.

(** [RequestData::constructPtr] as the store uses it: the handle for the same
    object, with the increment of its counter in the trace. *)
Definition constructPtr (p : handle) : handle * list event :=
  match p with
  | Some d => (Some d, [KeepAliveInc (addr d)])
  | None => (None, [])
  end.

(** Destruction or [reset(nullptr)] of a [SharedPtr]: [DestructPtr] runs on
    the pointer it held. *)
Definition DestructPtr (p : handle) : list event :=
  match p with
  | Some d => [KeepAliveDec (addr d)]
  | None => []
  end.

(** ** The counters behind a trace

    The objects by address, and what the reference-count events of a trace
    do to them; [None] when a [DCHECK] fails or an event names an address
    with no object.  The other events, the [delete] of an object that
    never went into a store included, leave the counters alone. *)
Definition replay_event (h : gmap ptr KeepAlive.object) (e : event)
  : option (gmap ptr KeepAlive.object) :=
  match e with
  | KeepAliveInc p =>
      o ← h !! p;
      match KeepAlive.constructPtr o with
      | KeepAlive.Ok o' => Some (<[p := o']> h)
      | KeepAlive.DCheckFailed => None
      end
  | KeepAliveDec p =>
      o ← h !! p;
      match KeepAlive.DestructPtr o with
      | KeepAlive.Ok o' => Some (<[p := o']> h)
      | KeepAlive.DCheckFailed => None
      end
  | _ => Some h
  end.

Fixpoint replay (h : gmap ptr KeepAlive.object) (t : list event)
  : option (gmap ptr KeepAlive.object) :=
  match t with
  | [] => Some h
  | e :: t' => h' ← replay_event h e; replay h' t'
  end.

(** An object after [n] more increments of its counter. *)
Definition acquired (n : nat) (o : KeepAlive.object) : KeepAlive.object :=
  {| KeepAlive.keepAliveCounter_ :=
       (KeepAlive.keepAliveCounter_ o + Z.of_nat n)%Z;
     KeepAlive.deleted := KeepAlive.deleted o |}.

(** The number of entries of a map that hold the object at [q]. *)
Definition references (m : gmap string handle) (q : ptr) : nat :=
  length (filter (λ entry : string * handle, addr <$> entry.2 = Some q)
                 (map_to_list m)).

(** ** [doSetContextData] (lines 49-88) *)

Inductive DoSetBehaviour : Type := SET | SET_IF_ABSENT | OVERWRITE.

#[global] Instance DoSetBehaviour_eq_dec : EqDecision DoSetBehaviour.
Proof. solve_decision. Defined.

(** What a call leaves behind: the returned flag, the state, the
    [unique_ptr] passed by reference (emptied by [data.release()] when the
    object went into the store), the number of times the [LOG_FIRST_N]
    statement has been reached, and the trace. *)
Record DoSetResult : Type := mkDoSetResult {
  returned : bool;
  state_after : State;
  data_after : handle;
  logged_after : nat;
  trace : list event
}.

(** Modelled from the spec: [LOG_FIRST_N] is a macro of the logging
    library; the advisory is raised the first time the statement is reached
    in the life of the process.  [logged] counts how often it has been
    reached. *)
Definition LOG_FIRST_N_1 (logged : nat) (val : string) : nat * list event :=
  (S logged, if decide (logged = 0)%nat then [Warning val] else []).

(** Lines 69-75: the entry found under the key is unset and emptied. *)
Definition unsetExisting (st : State) (val : string) (old : handle)
  : State * list event :=
  match old with
  | Some o =>
      let '(cb, ev) :=
        if hasCallback o
        then (set_erase (addr o) (callbackData_ st), [OnUnset (addr o)])
        else (callbackData_ st, []) in
      ({| requestData_ := <[val := None]> (requestData_ st);
          callbackData_ := cb |},
       ev ++ DestructPtr old)
  | None => (st, [])
  end.

(** Lines 81-85: the new object is registered and stored.  The assignment
    to [requestData_[val]] releases what the slot held, which is null on
    both paths that reach it. *)
Definition install (st : State) (val : string) (data : handle)
  : State * list event :=
  let '(cb, ev) :=
    match data with
    | Some d =>
        if hasCallback d
        then (set_insert (addr d) (callbackData_ st), [OnSet (addr d)])
        else (callbackData_ st, [])
    | None => (callbackData_ st, [])
    end in
  let '(stored, ev') := constructPtr data in
  ({| requestData_ := <[val := stored]> (requestData_ st);
      callbackData_ := cb |},
   ev ++ ev' ++ DestructPtr (default None (requestData_ st !! val))).

Definition doSetContextData (st : State) (logged : nat) (val : string)
    (data : handle) (behaviour : DoSetBehaviour) : DoSetResult :=
  match requestData_ st !! val with
  | Some old =>
      match behaviour with
      | SET_IF_ABSENT =>
          {| returned := false; state_after := st; data_after := data;
             logged_after := logged; trace := [] |}
      | SET =>
          let '(logged', warn) := LOG_FIRST_N_1 logged val in
          let '(st1, ev1) := unsetExisting st val old in
          {| returned := true; state_after := st1; data_after := data;
             logged_after := logged'; trace := warn ++ ev1 |}
      | OVERWRITE =>
          let '(st1, ev1) := unsetExisting st val old in
          let '(st2, ev2) := install st1 val data in
          {| returned := true; state_after := st2; data_after := None;
             logged_after := logged; trace := ev1 ++ ev2 |}
      end
  | None =>
      let '(st2, ev2) := install st val data in
      {| returned := true; state_after := st2; data_after := None;
         logged_after := logged; trace := ev2 |}
  end.

(** Lines 90-106.  The wrappers take [data] by value and pass it on by
    reference.  When the wrapper returns its parameter is destroyed: if
    [doSetContextData] has not released it, the [unique_ptr] still owns
    the object and deletes it.  Nothing is left to the caller. *)
Definition destroyParameter (r : DoSetResult) : DoSetResult :=
  {| returned := returned r;
     state_after := state_after r;
     data_after := None;
     logged_after := logged_after r;
     trace := trace r ++ match data_after r with
                         | Some d => [Delete (addr d)]
                         | None => []
                         end |}.

Definition setContextData (st : State) (logged : nat) (val : string)
    (data : handle) : DoSetResult :=
  destroyParameter (doSetContextData st logged val data SET).

Definition setContextDataIfAbsent (st : State) (logged : nat) (val : string)
    (data : handle) : DoSetResult :=
  destroyParameter (doSetContextData st logged val data SET_IF_ABSENT).

Definition overwriteContextData (st : State) (logged : nat) (val : string)
    (data : handle) : DoSetResult :=
  destroyParameter (doSetContextData st logged val data OVERWRITE).

(** ** Queries (lines 108-121) *)

(** [requestData_.count(val)], converted to [bool]. *)
Definition hasContextData (st : State) (val : string) : bool :=
  bool_decide (is_Some (requestData_ st !! val)).

(** Modelled from the spec: [get_ref_default] of folly/MapUtil.h is not part
    of the source at hand; it returns a reference to the value stored under
    the key, or to the given default when the key is absent. *)
Definition get_ref_default (m : gmap string handle) (key : string)
    (dflt : handle) : handle :=
  match m !! key with
  | Some v => v
  | None => dflt
  end.

(** The raw pointer [.get()] of the entry, null for the default. *)
Definition getContextData (st : State) (val : string) : handle :=
  let dflt : handle := None in
  get_ref_default (requestData_ st) val dflt.

(** ** Aggregate callbacks (lines 123-135) *)

Definition onSet (st : State) : list event :=
  map OnSet (callbackData_ st).

Definition onUnset (st : State) : list event :=
  map OnUnset (callbackData_ st).

(** ** [clearContextData] (lines 137-157)

    The entry is moved into the local [requestData], which is destroyed when
    the function returns, after the locks are gone. *)
Definition clearContextData (st : State) (val : string) : State * list event :=
  match requestData_ st !! val with
  | None => (st, [])
  | Some old =>
      let '(cb, ev) :=
        match old with
        | Some o =>
            if hasCallback o
            then (set_erase (addr o) (callbackData_ st), [OnUnset (addr o)])
            else (callbackData_ st, [])
        | None => (callbackData_ st, [])
        end in
      let requestData := old in
      ({| requestData_ := delete val (requestData_ st);
          callbackData_ := cb |},
       ev ++ DestructPtr requestData)
  end.

(** ** [exec_set_difference] (lines 159-183)

    The loop walks both containers in increasing order; [exec] is applied to
    the elements of [data] at which the walk finds no equal element of
    [other]. *)
Fixpoint exec_set_difference (exec : ptr → event) (data : list ptr)
  : list ptr → list event :=
  match data with
  | [] => λ _, []
  | d :: data' =>
      fix walk (other : list ptr) : list event :=
        match other with
        | [] => exec d :: exec_set_difference exec data' []
        | o :: other' =>
            if (d <? o)%positive
            then exec d :: exec_set_difference exec data' other
            else if (o <? d)%positive
            then walk other'
            else exec_set_difference exec data' other'
        end
  end.

(** ** The current context (lines 185-251) *)

(** A [std::shared_ptr<RequestContext>]: null, or the identity of a context
    created by [make_shared]. *)
Abbreviation ctx := (option positive).

(** What [RequestContext::get] returns: the function-local static
    [defaultContext] or a context of the heap. *)
Inductive ctx_ptr : Type :=
  | DefaultContext
  | HeapContext (c : positive).

(** The contexts alive, the slot of this lane ([getStaticContext()]) and the
    function-local static of [get], [None] until first constructed. *)
Record World : Type := mkWorld {
  contexts : gmap positive State;
  staticCtx : ctx;
  defaultContext : option State
}.

Definition getStaticContext (w : World) : ctx := staticCtx w.

Definition setStaticContext (w : World) (c : ctx) : World :=
  {| contexts := contexts w; staticCtx := c;
     defaultContext := defaultContext w |}.

(** [setContext] returns the previous context and leaves a new world and a
    trace; [None] stands for a shared pointer to a context that does not
    exist, which the type rules out.  The [FOLLY_SDT] probe of line 192
    has no effect on the program. *)
Definition setContext (w : World) (newCtx : ctx)
  : option (ctx * World * list event) :=
  let staticCtx := getStaticContext w in
  if decide (newCtx = staticCtx) then Some (newCtx, w, [])
  else
    let curCtx := staticCtx in
    match newCtx, curCtx with
    | Some n, Some c =>
        newState ← contexts w !! n;
        curState ← contexts w !! c;
        let newData := callbackData_ newState in
        let curData := callbackData_ curState in
        Some (curCtx, setStaticContext w newCtx,
              exec_set_difference OnUnset curData newData
              ++ [StaticCtxAssign newCtx]
              ++ exec_set_difference OnSet newData curData)
    | _, _ =>
        unset ← match curCtx with
                | Some c => onUnset <$> contexts w !! c
                | None => Some []
                end;
        set ← match newCtx with
              | Some n => onSet <$> contexts w !! n
              | None => Some []
              end;
        Some (curCtx, setStaticContext w newCtx,
              unset ++ [StaticCtxAssign newCtx] ++ set)
    end.

(** The entries of a [std::map] with string keys, in the order in which
    the container is walked: by increasing key. *)
Definition key_le (e1 e2 : string * handle) : Prop :=
  String.leb e1.1 e2.1 = true.

#[global] Instance key_le_dec : RelDecision key_le.
Proof. intros e1 e2. unfold key_le. apply _. Defined.

Definition entries_in_order (m : gmap string handle)
  : list (string * handle) :=
  merge_sort key_le (map_to_list m).

(** The loop of lines 233-236: the entries of the parent are stored one by
    one in the child, in key order, each through [constructPtr]. *)
Definition copyEntries (parent : gmap string handle)
  : gmap string handle * list event :=
  foldl (λ acc entry,
           let '(stored, ev) := constructPtr entry.2 in
           (<[entry.1 := stored]> acc.1, acc.2 ++ ev))
        (∅, []) (entries_in_order parent).

Definition shallowCopy (parent : State) : State * list event :=
  let '(entries, ev) := copyEntries (requestData_ parent) in
  ({| requestData_ := entries; callbackData_ := callbackData_ parent |}, ev).

(** [setShallowCopyContext]: [make_shared] yields a context that does not
    exist yet; [std::swap(child, parent)] puts it into the slot. *)
Definition setShallowCopyContext (w : World)
  : option (ctx * World * list event) :=
  let parent := getStaticContext w in
  let child := fresh (dom (contexts w)) in
  '(childState, ev) ←
    match parent with
    | Some p => shallowCopy <$> contexts w !! p
    | None => Some (emptyState, [])
    end;
  Some (parent,
        {| contexts := <[child := childState]> (contexts w);
           staticCtx := Some child;
           defaultContext := defaultContext w |},
        ev).

(** [RequestContext::get]: the static [defaultContext] is constructed the
    first time control passes through its declaration. *)
Definition get (w : World) : ctx_ptr * World :=
  let context := getStaticContext w in
  match context with
  | None =>
      (DefaultContext,
       {| contexts := contexts w; staticCtx := staticCtx w;
          defaultContext :=
            Some (default emptyState (defaultContext w)) |})
  | Some c => (HeapContext c, w)
  end.

(** ** Well-formed states and reachable states *)

(** The objects stored under the keys of a state. *)
Definition holds (st : State) (val : string) (d : RequestData) : Prop :=
  requestData_ st !! val = Some (Some d).

(** [callbackData_] is the index of the stored objects with a callback:
    an ordered set, holding exactly their addresses; and no object is
    stored under two keys. *)
Record index_ok (st : State) : Prop := mkIndexOk {
  index_set : is_set (callbackData_ st);
  index_exact : ∀ p, p ∈ callbackData_ st ↔
    ∃ val d, holds st val d ∧ addr d = p ∧ hasCallback d = true;
  index_unique : ∀ val1 val2 d1 d2,
    holds st val1 d1 → holds st val2 d2 → addr d1 = addr d2 →
    val1 = val2 ∧ d1 = d2
}.

(** A [std::unique_ptr] argument is the only owner of its object: the state
    does not hold it already. *)
Definition sole_owner (data : handle) (st : State) : Prop :=
  match data with
  | Some d => ∀ val d', holds st val d' → addr d' ≠ addr d
  | None => True
  end.

(** The states a context goes through: created empty or as a shallow copy,
    then changed by the four mutators. *)
Inductive reachable : State → Prop :=
  | reach_empty : reachable emptyState
  | reach_set st logged val data :
      reachable st → sole_owner data st →
      reachable (state_after (setContextData st logged val data))
  | reach_setIfAbsent st logged val data :
      reachable st → sole_owner data st →
      reachable (state_after (setContextDataIfAbsent st logged val data))
  | reach_overwrite st logged val data :
      reachable st → sole_owner data st →
      reachable (state_after (overwriteContextData st logged val data))
  | reach_clear st val :
      reachable st → reachable (clearContextData st val).1
  | reach_shallowCopy st :
      reachable st → reachable (shallowCopy st).1.

(** ** Sequences of calls on one store *)

(** A call of one of the four mutators of a context. *)
Inductive command : Type :=
  | CallSet (val : string) (data : handle)
  | CallSetIfAbsent (val : string) (data : handle)
  | CallOverwrite (val : string) (data : handle)
  | CallClear (val : string).

(** The [unique_ptr] argument of a call; [clearContextData] has none. *)
Definition argument (c : command) : handle :=
  match c with
  | CallSet _ data | CallSetIfAbsent _ data | CallOverwrite _ data => data
  | CallClear _ => None
  end.

(** One call: the state and the count of the advisory it leaves, and its
    trace. *)
Definition call (st : State) (logged : nat) (c : command)
  : State * nat * list event :=
  match c with
  | CallSet val data =>
      let r := setContextData st logged val data in
      (state_after r, logged_after r, trace r)
  | CallSetIfAbsent val data =>
      let r := setContextDataIfAbsent st logged val data in
      (state_after r, logged_after r, trace r)
  | CallOverwrite val data =>
      let r := overwriteContextData st logged val data in
      (state_after r, logged_after r, trace r)
  | CallClear val =>
      let '(st', ev) := clearContextData st val in
      (st', logged, ev)
  end.

(** Calls one after the other, with the trace of all of them. *)
Fixpoint calls (st : State) (logged : nat) (cs : list command)
  : State * nat * list event :=
  match cs with
  | [] => (st, logged, [])
  | c :: cs' =>
      let '(st1, logged1, ev1) := call st logged c in
      let '(st2, logged2, ev2) := calls st1 logged1 cs' in
      (st2, logged2, ev1 ++ ev2)
  end.

(** Every argument of the sequence is the sole owner of its object when
    its call is made. *)
Fixpoint owned (st : State) (logged : nat) (cs : list command) : Prop :=
  match cs with
  | [] => True
  | c :: cs' =>
      sole_owner (argument c) st ∧
      owned (call st logged c).1.1 (call st logged c).1.2 cs'
  end.

(** The references of a state are counted: every object it stores exists
    and its counter is at least one. *)
Definition counted (st : State) (h : gmap ptr KeepAlive.object) : Prop :=
  ∀ val d, holds st val d →
    ∃ o, h !! addr d = Some o ∧ (1 ≤ KeepAlive.keepAliveCounter_ o)%Z.

(** The callback set of the context a shared pointer refers to; the null
    pointer has none. *)
Definition visible (w : World) (c : ctx) : list ptr :=
  match c with
  | Some n => default [] (callbackData_ <$> contexts w !! n)
  | None => []
  end.

(** The advisories among the events of a trace. *)
Definition is_warning (e : event) : bool :=
  match e with
  | Warning _ => true
  | _ => false
  end.

Definition warnings (t : list event) : nat :=
  length (List.filter is_warning t).

(** Whether an address is in a callback set, as a number. *)
Definition indexed (s : list ptr) (p : ptr) : nat :=
  if decide (p ∈ s) then 1 else 0.

(** * Properties *)

(** ** Ordered sets *)

Section ordered_sets.
Implicit Types (p q : ptr) (s : list ptr).

Lemma is_set_cons_inv q s :
  is_set (q :: s) → is_set s ∧ ∀ x, x ∈ s → (q < x)%positive.
Proof.
  intros H. apply StronglySorted_inv in H as [Hs Hall].
  split; [done|]. by apply Forall_forall.
Qed.

Lemma is_set_cons q s :
  is_set s → (∀ x, x ∈ s → (q < x)%positive) → is_set (q :: s).
Proof.
  intros Hs Hall. constructor; [done|]. by apply Forall_forall.
Qed.

Lemma is_set_NoDup s : is_set s → NoDup s.
Proof.
  induction s as [|q s IH]; intros H; [constructor|].
  apply is_set_cons_inv in H as [Hs Hall].
  constructor; [|by apply IH].
  intros Hin. apply Hall in Hin. lia.
Qed.

Lemma elem_of_set_insert p q s :
  q ∈ set_insert p s ↔ q = p ∨ q ∈ s.
Proof.
  induction s as [|x s IH]; simpl.
  - rewrite list_elem_of_singleton, elem_of_nil. naive_solver.
  - destruct (Pos.ltb_spec p x); [by rewrite elem_of_cons|].
    destruct (Pos.eqb_spec p x) as [->|].
    + rewrite elem_of_cons. naive_solver.
    + rewrite !elem_of_cons, IH. naive_solver.
Qed.

Lemma set_insert_is_set p s : is_set s → is_set (set_insert p s).
Proof.
  induction s as [|x s IH]; simpl; intros H.
  - apply is_set_cons; [done|]. intros y Hy. by apply elem_of_nil in Hy.
  - destruct (Pos.ltb_spec p x) as [Hlt|Hge].
    + apply is_set_cons; [done|]. intros y Hy.
      apply is_set_cons_inv in H as [_ Hall].
      apply elem_of_cons in Hy as [->|Hy]; [done|].
      apply Hall in Hy. lia.
    + destruct (Pos.eqb_spec p x) as [->|Hne]; [done|].
      apply is_set_cons_inv in H as [Hs Hall].
      apply is_set_cons; [by apply IH|].
      intros y Hy. apply elem_of_set_insert in Hy as [->|Hy]; [lia|].
      by apply Hall.
Qed.

Lemma elem_of_set_erase p q s :
  is_set s → q ∈ set_erase p s ↔ q ≠ p ∧ q ∈ s.
Proof.
  induction s as [|x s IH]; simpl; intros H.
  - rewrite elem_of_nil. naive_solver.
  - apply is_set_cons_inv in H as [Hs Hall].
    destruct (Pos.ltb_spec p x) as [Hlt|Hge].
    + split; [|naive_solver]. intros Hq. split; [|done].
      apply elem_of_cons in Hq as [->|Hq]; [lia|].
      apply Hall in Hq. lia.
    + destruct (Pos.eqb_spec p x) as [->|Hne].
      * rewrite elem_of_cons. split.
        -- intros Hq. split; [|by right]. apply Hall in Hq. lia.
        -- naive_solver.
      * rewrite !elem_of_cons, IH by done. naive_solver.
Qed.

Lemma set_erase_is_set p s : is_set s → is_set (set_erase p s).
Proof.
  induction s as [|x s IH]; simpl; intros H; [done|].
  destruct (Pos.ltb_spec p x); [done|].
  pose proof H as H'. apply is_set_cons_inv in H' as [Hs Hall].
  destruct (Pos.eqb_spec p x); [done|].
  apply is_set_cons; [by apply IH|].
  intros y Hy. apply elem_of_set_erase in Hy as [_ Hy]; [|done].
  by apply Hall.
Qed.

Lemma set_erase_absent p s : is_set s → p ∉ s → set_erase p s = s.
Proof.
  induction s as [|x s IH]; simpl; intros H Hp; [done|].
  destruct (Pos.ltb_spec p x); [done|].
  apply is_set_cons_inv in H as [Hs _].
  apply not_elem_of_cons in Hp as [Hne Hp].
  destruct (Pos.eqb_spec p x) as [->|]; [done|].
  f_equal. by apply IH.
Qed.

(** Two ordered sets with the same elements are the same list. *)
Lemma is_set_ext s1 s2 :
  is_set s1 → is_set s2 → (∀ x, x ∈ s1 ↔ x ∈ s2) → s1 = s2.
Proof.
  revert s2. induction s1 as [|a s1 IH]; intros [|b s2] H1 H2 Heq.
  - done.
  - exfalso. eapply elem_of_nil, Heq. by left.
  - exfalso. eapply elem_of_nil, Heq. by left.
  - apply is_set_cons_inv in H1 as [H1 Ha].
    apply is_set_cons_inv in H2 as [H2 Hb].
    assert (a = b) as ->.
    { pose proof (proj1 (Heq a) ltac:(by left)) as Hab.
      pose proof (proj2 (Heq b) ltac:(by left)) as Hba.
      apply elem_of_cons in Hab as [?|Hab]; [done|].
      apply elem_of_cons in Hba as [?|Hba]; [done|].
      apply Hb in Hab. apply Ha in Hba. lia. }
    f_equal. apply IH; [done..|].
    intros x. specialize (Heq x). rewrite !elem_of_cons in Heq.
    split; intros Hx.
    + destruct (proj1 Heq (or_intror Hx)) as [->|]; [|done].
      apply Ha in Hx. lia.
    + destruct (proj2 Heq (or_intror Hx)) as [->|]; [|done].
      apply Hb in Hx. lia.
Qed.

Lemma filter_ext_elem_of (P Q : ptr → Prop)
    `{!∀ x, Decision (P x)} `{!∀ x, Decision (Q x)} s :
  (∀ x, x ∈ s → P x ↔ Q x) → filter P s = filter Q s.
Proof.
  induction s as [|x s IH]; intros Heq; [done|].
  rewrite !filter_cons.
  rewrite IH by (intros y Hy; apply Heq; by right).
  assert (P x ↔ Q x) as Hx by (apply Heq; by left).
  destruct (decide (P x)), (decide (Q x)); naive_solver.
Qed.

(** The walk of [exec_set_difference] over two ordered sets applies
    [exec], in order, to the elements of the first that the second
    lacks. *)
Lemma exec_set_difference_filter exec data other :
  is_set data → is_set other →
  exec_set_difference exec data other
  = map exec (filter (λ d, d ∉ other) data).
Proof.
  revert other. induction data as [|d data IH]; intros other Hd Ho.
  { done. }
  pose proof Hd as Hd'. apply is_set_cons_inv in Hd' as [Hdata Hlt].
  induction other as [|o other IHo].
  - rewrite filter_cons_True by apply not_elem_of_nil.
    cbn [exec_set_difference map]. f_equal.
    by apply IH; [|constructor].
  - pose proof Ho as Ho'. apply is_set_cons_inv in Ho' as [Hother Hlto].
    cbn [exec_set_difference].
    destruct (Pos.ltb_spec d o) as [Hdo|Hdo].
    + rewrite IH by done.
      rewrite filter_cons_True; [done|].
      intros Hin. apply elem_of_cons in Hin as [->|Hin]; [lia|].
      apply Hlto in Hin. lia.
    + destruct (Pos.ltb_spec o d) as [Hod|Hod].
      * change (exec_set_difference exec (d :: data) other
                = map exec (filter (λ x, x ∉ o :: other) (d :: data))).
        rewrite IHo by done. f_equal.
        apply filter_ext_elem_of. intros x Hx.
        rewrite not_elem_of_cons.
        assert (x ≠ o); [|naive_solver].
        apply elem_of_cons in Hx as [->|Hx]; [lia|].
        apply Hlt in Hx. lia.
      * assert (d = o) as -> by lia.
        rewrite IH by done.
        rewrite filter_cons_False
          by (intros Hn; apply Hn; apply elem_of_cons; by left).
        f_equal. apply filter_ext_elem_of. intros x Hx.
        rewrite not_elem_of_cons.
        assert (x ≠ o); [|naive_solver].
        apply Hlt in Hx. lia.
Qed.

End ordered_sets.

(** ** Reference counting *)

Module KeepAliveFacts.
Import KeepAlive.
Local Open Scope Z_scope.

Lemma run_snoc o t x :
  run o (t ++ [x]) =
  match run o t with
  | Ok o' => step o' x
  | DCheckFailed => DCheckFailed
  end.
Proof.
  revert o. induction t as [|y t IH]; intros o; simpl.
  - by destruct (step o x).
  - destruct (step o y); [apply IH|done].
Qed.

Lemma acquires_snoc t x :
  acquires (t ++ [x]) = acquires t + (if decide (x = Acquire) then 1 else 0).
Proof.
  unfold acquires. rewrite List.filter_app, length_app. simpl.
  destruct x; simpl; lia.
Qed.

Lemma releases_snoc t x :
  releases (t ++ [x]) = releases t + (if decide (x = Release) then 1 else 0).
Proof.
  unfold releases. rewrite List.filter_app, length_app. simpl.
  destruct x; simpl; lia.
Qed.

Lemma releases_covered_prefix t x :
  releases_covered (t ++ [x]) → releases_covered t.
Proof.
  intros H n Hn. pose proof (lookup_lt_Some _ _ _ Hn) as Hlen.
  specialize (H n). rewrite lookup_app_l, take_app_le in H by lia. auto.
Qed.

Lemma acquires_covered_prefix t x :
  acquires_covered (t ++ [x]) → acquires_covered t.
Proof.
  intros H n Hn. pose proof (lookup_lt_Some _ _ _ Hn) as Hlen.
  specialize (H n). rewrite lookup_app_l, take_app_le in H by lia. auto.
Qed.

Lemma covered_last t x :
  t ≠ [] → releases_covered (t ++ [x]) → acquires_covered (t ++ [x]) →
  releases t < acquires t.
Proof.
  intros Hne Hr Ha.
  assert ((t ++ [x]) !! length t = Some x) as Hx.
  { rewrite lookup_app_r, Nat.sub_diag by lia. done. }
  assert (take (length t) (t ++ [x]) = t) as Htake.
  { by rewrite take_app_length. }
  destruct x.
  - specialize (Ha _ Hx). rewrite Htake in Ha. apply Ha.
    destruct t; [done|]. simpl. lia.
  - specialize (Hr _ Hx). by rewrite Htake in Hr.
Qed.

(** Under the precondition on releases no [DCHECK] fails, and the counter
    is the number of references outstanding. *)
Lemma run_covered t :
  releases_covered t →
  ∃ o, run constructed t = Ok o ∧
       keepAliveCounter_ o = acquires t - releases t ∧
       0 ≤ keepAliveCounter_ o.
Proof.
  induction t as [|x t IH] using rev_ind; intros Hcov.
  { by eexists. }
  destruct (IH (releases_covered_prefix _ _ Hcov)) as (o & Hrun & Hc & Hpos).
  rewrite run_snoc, Hrun, acquires_snoc, releases_snoc.
  destruct x; simpl.
  - unfold constructPtr, fetch_add.
    destruct (Z.geb_spec (keepAliveCounter_ o) 0); [|lia].
    eexists. split; [done|]. simpl. lia.
  - assert (releases t < acquires t) as Hlt.
    { specialize (Hcov (length t)).
      rewrite lookup_app_r, Nat.sub_diag, take_app_length in Hcov by lia.
      by apply Hcov. }
    unfold DestructPtr, fetch_sub.
    destruct (Z.gtb_spec (keepAliveCounter_ o) 0); [|lia].
    destruct (keepAliveCounter_ o =? 1); eexists; (split; [done|]);
      simpl; lia.
Qed.

(** With no acquire at counter zero but the first, [delete] is reached
    only by the release of the last reference, and nothing follows
    it. *)
Lemma run_deleted t :
  releases_covered t → acquires_covered t →
  ∃ o, run constructed t = Ok o ∧
       deleted o =
         if decide (t ≠ [] ∧ acquires t = releases t) then 1%nat else 0%nat.
Proof.
  induction t as [|x t IH] using rev_ind; intros Hr Ha.
  { eexists. split; [done|]. by rewrite decide_False by naive_solver. }
  destruct (IH (releases_covered_prefix _ _ Hr)
               (acquires_covered_prefix _ _ Ha)) as (o & Hrun & Hdel).
  destruct (run_covered t (releases_covered_prefix _ _ Hr))
    as (o' & Hrun' & Hc & Hpos).
  rewrite Hrun in Hrun'. injection Hrun' as <-.
  rewrite run_snoc, Hrun, acquires_snoc, releases_snoc.
  destruct (decide (t = [])) as [->|Hne].
  - simpl in Hrun. injection Hrun as <-. destruct x.
    + eexists. split; [reflexivity|].
      destruct (decide _) as [[_ Heq]|_]; [|done].
      vm_compute in Heq. done.
    + specialize (Hr 0%nat eq_refl). vm_compute in Hr. done.
  - pose proof (covered_last _ _ Hne Hr Ha) as Hlt.
    rewrite decide_False in Hdel by lia.
    destruct x; simpl.
    + unfold constructPtr, fetch_add.
      destruct (Z.geb_spec (keepAliveCounter_ o) 0); [|lia].
      eexists. split; [done|]. simpl.
      rewrite decide_False by lia. done.
    + unfold DestructPtr, fetch_sub.
      destruct (Z.gtb_spec (keepAliveCounter_ o) 0); [|lia].
      destruct (Z.eqb_spec (keepAliveCounter_ o) 1);
        (eexists; split; [done|]); simpl.
      * rewrite decide_True; [lia|]. split; [by destruct t|lia].
      * rewrite decide_False by lia. done.
Qed.

Lemma covered_take t n :
  releases_covered t → releases_covered (take n t).
Proof.
  intros H m Hm. apply lookup_take_Some in Hm as [Hm Hlt].
  rewrite take_take, Nat.min_l by lia. by apply H.
Qed.

Lemma acquires_covered_take t n :
  acquires_covered t → acquires_covered (take n t).
Proof.
  intros H m Hm. apply lookup_take_Some in Hm as [Hm Hlt].
  rewrite take_take, Nat.min_l by lia. by apply H.
Qed.

(** C6, as amended.  For an object whose counter starts at zero and a
    sequence of acquires ([constructPtr]) and releases ([DestructPtr]) in
    which every release is preceded by strictly more acquires than
    releases: no [DCHECK] fails and the counter is the number of
    outstanding references; [delete] is executed by exactly those
    releases that find the counter at 1, and by nothing else; and when,
    in addition, no acquire other than the first finds the counter at
    zero, the object is deleted at most once, by the last operation of
    the sequence, and exactly once when the sequence is not empty and
    every acquire is matched by a release. *)
Theorem destroyed_by_last_release (t : list op) :
  releases_covered t →
  (∃ o, run constructed t = Ok o ∧
        keepAliveCounter_ o = acquires t - releases t) ∧
  (∀ n x, t !! n = Some x →
     ∃ o1 o2, run constructed (take n t) = Ok o1 ∧
              step o1 x = Ok o2 ∧
              run constructed (take (S n) t) = Ok o2 ∧
              deleted o2 =
                if deletes o1 x then S (deleted o1) else deleted o1) ∧
  (acquires_covered t →
     ∃ o, run constructed t = Ok o ∧
          deleted o =
            (if decide (t ≠ [] ∧ acquires t = releases t)
             then 1%nat else 0%nat) ∧
          ∀ n o1, (n < length t)%nat →
            run constructed (take n t) = Ok o1 → deleted o1 = 0%nat).
Proof.
  intros Hr. split; [|split].
  - destruct (run_covered t Hr) as (o & Hrun & Hc & _). eauto.
  - intros n x Hx.
    destruct (run_covered (take n t) (covered_take _ _ Hr))
      as (o1 & Hrun1 & Hc1 & Hpos1).
    destruct (run_covered (take (S n) t) (covered_take _ _ Hr))
      as (o2 & Hrun2 & _).
    exists o1, o2. rewrite (take_S_r _ _ _ Hx) in Hrun2 |- *.
    rewrite run_snoc, Hrun1 in Hrun2 |- *.
    repeat split; try done.
    destruct x; simpl in *.
    + unfold constructPtr, fetch_add in Hrun2.
      destruct (keepAliveCounter_ o1 >=? 0); [|done].
      by injection Hrun2 as <-.
    + unfold DestructPtr, fetch_sub in Hrun2.
      destruct (keepAliveCounter_ o1 >? 0); [|done].
      destruct (keepAliveCounter_ o1 =? 1); by injection Hrun2 as <-.
  - intros Ha. destruct (run_deleted t Hr Ha) as (o & Hrun & Hdel).
    exists o. repeat split; try done.
    intros n o1 Hn Hrun1.
    destruct (run_deleted (take n t) (covered_take _ _ Hr)
                (acquires_covered_take _ _ Ha)) as (o1' & Hrun1' & Hdel1).
    rewrite Hrun1 in Hrun1'. injection Hrun1' as <-.
    rewrite Hdel1. apply decide_False. intros [Hne Heq].
    destruct (lookup_lt_is_Some_2 t n Hn) as [x Hx].
    assert (n ≠ 0%nat) as Hn0 by (intros ->; by apply Hne).
    destruct x; [specialize (Ha n Hx Hn0)|specialize (Hr n Hx)]; lia.
Qed.

Lemma covered_example :
  releases_covered [Acquire; Acquire; Release; Release] ∧
  acquires_covered [Acquire; Acquire; Release; Release].
Proof.
  split; intros [|[|[|[|n]]]] Hn; simpl in Hn; try discriminate;
    try (intros; vm_compute; reflexivity); done.
Defined.

Lemma destroyed_by_last_release_witness :
  releases_covered [Acquire; Acquire; Release; Release] ∧
  ∃ o, run constructed [Acquire; Acquire; Release; Release] = Ok o ∧
       keepAliveCounter_ o = 0 ∧ deleted o = 1%nat.
Proof.
  split; [apply covered_example|].
  destruct (destroyed_by_last_release
              [Acquire; Acquire; Release; Release]
              (proj1 covered_example)) as (_ & _ & Hdel).
  destruct (Hdel (proj2 covered_example)) as (o & Hrun & Ho & _).
  exists o. split; [exact Hrun|].
  split; [|exact Ho].
  vm_compute in Hrun. injection Hrun as <-. reflexivity.
Defined.

(** C6 as stated fails.  The precondition on releases allows an acquire
    after the counter has returned to zero, and then [delete] is reached
    twice; it also allows references that are never released, and then
    [delete] is not reached. *)
Lemma destroyed_twice_or_never :
  (releases_covered [Acquire; Release; Acquire; Release] ∧
   run constructed [Acquire; Release; Acquire; Release]
   = Ok {| keepAliveCounter_ := 0; deleted := 2 |}) ∧
  (releases_covered [Acquire; Acquire; Release] ∧
   run constructed [Acquire; Acquire; Release]
   = Ok {| keepAliveCounter_ := 1; deleted := 0 |}).
Proof.
  split; (split; [|reflexivity]).
  - intros [|[|[|[|n]]]] Hn; simpl in Hn; try discriminate;
      vm_compute; reflexivity.
  - intros [|[|[|n]]] Hn; simpl in Hn; try discriminate;
      vm_compute; reflexivity.
Qed.

End KeepAliveFacts.

(** ** The store: queries, clear, set *)

Section store.
Implicit Types (st : State) (val : string) (data old : handle).

(** C8.  [hasContextData] answers whether the key occupies a slot, the
    explicit null marker included; [getContextData] is null when the key
    is absent or its entry is the null marker, and the stored object
    otherwise.  After a [setContextData] with null data the key is
    present and its data is null. *)
Theorem has_get_by_entry st val :
  match requestData_ st !! val with
  | None => hasContextData st val = false ∧ getContextData st val = None
  | Some None => hasContextData st val = true ∧ getContextData st val = None
  | Some (Some d) =>
      hasContextData st val = true ∧ getContextData st val = Some d
  end ∧
  (val ∈ dom (requestData_ st) ↔ hasContextData st val = true) ∧
  ∀ logged,
    let st' := state_after (setContextData st logged val None) in
    hasContextData st' val = true ∧ getContextData st' val = None.
Proof.
  unfold hasContextData, getContextData, get_ref_default.
  split; [|split].
  - destruct (requestData_ st !! val) as [[d|]|] eqn:E; split; try done;
      apply bool_decide_eq_false; by intros [? ?].
  - by rewrite elem_of_dom, bool_decide_eq_true.
  - intros logged. unfold setContextData, doSetContextData.
    destruct (requestData_ st !! val) as [[d|]|] eqn:E; simpl.
    + destruct (hasCallback d); simpl; rewrite lookup_insert_eq;
        split; [by apply bool_decide_eq_true|done
               |by apply bool_decide_eq_true|done].
    + rewrite E. split; [by apply bool_decide_eq_true|done].
    + rewrite lookup_insert_eq. split; [by apply bool_decide_eq_true|done].
Qed.

Lemma clearContextData_absent st val :
  requestData_ st !! val = None → clearContextData st val = (st, []).
Proof. intros H. unfold clearContextData. by rewrite H. Qed.

Lemma clearContextData_lookup st val :
  requestData_ (clearContextData st val).1 !! val = None.
Proof.
  unfold clearContextData.
  destruct (requestData_ st !! val) as [[d|]|] eqn:E; simpl; [| |done].
  - destruct (hasCallback d); simpl; apply lookup_delete_eq.
  - apply lookup_delete_eq.
Qed.

(** C7.  [clearContextData] on a key that is absent leaves the state as
    it is and fires nothing; a second clear of the same key is therefore
    without effect. *)
Theorem clear_absent_noop st val :
  (requestData_ st !! val = None → clearContextData st val = (st, [])) ∧
  clearContextData (clearContextData st val).1 val
  = ((clearContextData st val).1, []).
Proof.
  split; [apply clearContextData_absent|].
  apply clearContextData_absent, clearContextData_lookup.
Qed.

Lemma clear_absent_noop_witness :
  requestData_ emptyState !! "k"%string = None ∧
  clearContextData emptyState "k" = (emptyState, []).
Proof.
  split; [reflexivity|].
  apply (proj1 (clear_absent_noop emptyState "k")). reflexivity.
Defined.

Lemma install_requestData st val data :
  requestData_ (install st val data).1 = <[val := data]> (requestData_ st).
Proof.
  unfold install.
  destruct data as [d|]; simpl; [destruct (hasCallback d)|]; done.
Qed.

Lemma install_callbackData st val data :
  callbackData_ (install st val data).1 =
  match data with
  | Some d =>
      if hasCallback d then set_insert (addr d) (callbackData_ st)
      else callbackData_ st
  | None => callbackData_ st
  end.
Proof.
  unfold install.
  destruct data as [d|]; simpl; [destruct (hasCallback d)|]; done.
Qed.

Lemma doSetContextData_absent st logged val data behaviour :
  requestData_ st !! val = None →
  doSetContextData st logged val data behaviour =
  {| returned := true; state_after := (install st val data).1;
     data_after := None; logged_after := logged;
     trace := (install st val data).2 |}.
Proof.
  intros E. unfold doSetContextData. rewrite E.
  by destruct (install st val data).
Qed.

Lemma destroyParameter_released (r : DoSetResult) :
  data_after r = None → destroyParameter r =
  {| returned := returned r; state_after := state_after r;
     data_after := None; logged_after := logged_after r;
     trace := trace r |}.
Proof.
  intros E. unfold destroyParameter. by rewrite E, app_nil_r.
Qed.

(** C2, as amended.  [setContextDataIfAbsent] on a key that has an entry,
    the null marker included, returns false, changes nothing in the store
    and fires no callback; the object passed in is not kept for the
    caller: the by-value [unique_ptr] parameter still owns it when the
    call returns and deletes it.  On an absent key the call stores the
    data, takes it out of the [unique_ptr], registers an object with a
    callback in [callbackData_], calls its [onSet] once, and returns
    true.  On an empty store the first of two calls for one key succeeds,
    the second fails and the key keeps the first data. *)
Theorem setIfAbsent_by_entry st logged val data :
  let r := setContextDataIfAbsent st logged val data in
  match requestData_ st !! val with
  | Some _ =>
      returned r = false ∧ state_after r = st ∧
      callbacks (trace r) = [] ∧
      trace r = match data with
                | Some d => [Delete (addr d)]
                | None => []
                end ∧
      data_after r = None ∧ logged_after r = logged
  | None =>
      returned r = true ∧
      requestData_ (state_after r) = <[val := data]> (requestData_ st) ∧
      data_after r = None ∧ logged_after r = logged ∧
      (∀ p, Delete p ∉ trace r) ∧
      match data with
      | Some d =>
          if hasCallback d then
            callbackData_ (state_after r)
            = set_insert (addr d) (callbackData_ st) ∧
            addr d ∈ callbackData_ (state_after r) ∧
            trace r = [OnSet (addr d); KeepAliveInc (addr d)] ∧
            occurrences (OnSet (addr d)) (trace r) = 1
          else
            callbackData_ (state_after r) = callbackData_ st ∧
            trace r = [KeepAliveInc (addr d)]
      | None =>
          callbackData_ (state_after r) = callbackData_ st ∧ trace r = []
      end
  end ∧
  ∀ D1 D2,
    let r1 := setContextDataIfAbsent emptyState logged "k" D1 in
    let r2 := setContextDataIfAbsent (state_after r1) (logged_after r1)
                "k" D2 in
    returned r1 = true ∧ returned r2 = false ∧
    getContextData (state_after r2) "k" = D1.
Proof.
  split.
  - unfold setContextDataIfAbsent.
    destruct (requestData_ st !! val) as [old|] eqn:E.
    + unfold destroyParameter, doSetContextData. rewrite E.
      cbn [returned state_after data_after logged_after trace app].
      split_and!; try done. by destruct data.
    + rewrite doSetContextData_absent, destroyParameter_released by done.
      cbn [returned state_after data_after logged_after trace].
      rewrite install_requestData, install_callbackData.
      unfold install. rewrite E.
      destruct data as [d|]; simpl.
      * destruct (hasCallback d); simpl; split_and!; try done.
        -- intros p. rewrite !elem_of_cons, elem_of_nil. naive_solver.
        -- apply elem_of_set_insert. by left.
        -- unfold occurrences. simpl. by rewrite bool_decide_eq_true_2.
        -- intros p. rewrite !elem_of_cons, elem_of_nil. naive_solver.
      * split_and!; try done. intros p. apply not_elem_of_nil.
  - intros D1 D2. unfold setContextDataIfAbsent.
    rewrite (doSetContextData_absent emptyState) by apply lookup_empty.
    rewrite destroyParameter_released by done.
    cbn [returned state_after logged_after].
    assert (requestData_ (install emptyState "k" D1).1 !! "k"%string
            = Some D1) as E.
    { rewrite install_requestData. apply lookup_insert_eq. }
    unfold destroyParameter, doSetContextData, getContextData,
      get_ref_default.
    rewrite E. cbn [returned state_after]. by rewrite E.
Qed.

(** C2 as stated fails in one point: on a present key the object passed
    in does not remain with the caller; it is deleted when the call
    returns. *)
Lemma setIfAbsent_deletes_data :
  let D1 := {| addr := 1%positive; hasCallback := true |} in
  let D2 := {| addr := 2%positive; hasCallback := true |} in
  let st := state_after (setContextDataIfAbsent emptyState 0 "k" (Some D1)) in
  let r := setContextDataIfAbsent st 0 "k" (Some D2) in
  returned r = false ∧ state_after r = st ∧
  trace r = [Delete 2%positive] ∧ data_after r = None.
Proof. vm_compute. done. Qed.




Lemma unsetExisting_requestData st val old :
  requestData_ st !! val = Some old →
  requestData_ (unsetExisting st val old).1
  = <[val := None]> (requestData_ st).
Proof.
  intros E. destruct old as [x|]; simpl.
  - by destruct (hasCallback x).
  - symmetry. by apply insert_id.
Qed.




Lemma unsetExisting_events st val old e :
  e ∈ (unsetExisting st val old).2 →
  (∃ p, e = OnUnset p) ∨ (∃ p, e = KeepAliveDec p).
Proof.
  destruct old as [x|]; [simpl; destruct (hasCallback x)|]; simpl;
    intros He; repeat (apply elem_of_cons in He as [->|He]); eauto;
    by apply elem_of_nil in He.
Qed.



End store.

(** ** The callback index *)

Section index.
Implicit Types (st : State) (val : string) (data old : handle).

Lemma index_ok_empty : index_ok emptyState.
Proof.
  split; simpl.
  - constructor.
  - intros p. rewrite elem_of_nil. split; [done|].
    intros (val & d & H & _). unfold holds in H. simpl in H.
    by rewrite lookup_empty in H.
  - intros val1 val2 d1 d2 H. unfold holds in H. simpl in H.
    by rewrite lookup_empty in H.
Qed.

(** The entry under [val] goes away, from the map and from the index. *)
Lemma index_ok_remove st st' val old :
  index_ok st →
  requestData_ st !! val = Some old →
  (∀ val' d, holds st' val' d ↔ val' ≠ val ∧ holds st val' d) →
  callbackData_ st' =
    match old with
    | Some x =>
        if hasCallback x then set_erase (addr x) (callbackData_ st)
        else callbackData_ st
    | None => callbackData_ st
    end →
  index_ok st'.
Proof.
  intros [Hset Hexact Huniq] E Hholds Hcb. split.
  - rewrite Hcb. destruct old as [x|]; [|done].
    destruct (hasCallback x); [by apply set_erase_is_set|done].
  - intros p. rewrite Hcb.
    assert ((∃ val' d, holds st' val' d ∧ addr d = p ∧ hasCallback d = true)
            ↔ ∃ val' d, val' ≠ val ∧ holds st val' d ∧ addr d = p
                        ∧ hasCallback d = true) as ->.
    { split; intros (val' & d & H & ?); exists val', d.
      - apply Hholds in H. naive_solver.
      - split; [|naive_solver]. apply Hholds. naive_solver. }
    destruct old as [x|].
    + destruct (hasCallback x) eqn:Hx.
      * rewrite elem_of_set_erase, Hexact by done. split.
        -- intros (Hne & val' & d & Hd & <- & Hcbd).
           exists val', d. split_and!; try done.
           intros ->. unfold holds in Hd. congruence.
        -- intros (val' & d & Hne & Hd & <- & Hcbd).
           split; [|by eauto].
           intros Heq. by destruct (Huniq val' val d x Hd E Heq).
      * rewrite Hexact. split.
        -- intros (val' & d & Hd & <- & Hcbd).
           exists val', d. split_and!; try done.
           intros ->. unfold holds in Hd. congruence.
        -- intros (val' & d & Hne & Hd & <- & Hcbd). by eauto.
    + rewrite Hexact. split.
      * intros (val' & d & Hd & <- & Hcbd).
        exists val', d. split_and!; try done.
        intros ->. unfold holds in Hd. congruence.
      * intros (val' & d & Hne & Hd & <- & Hcbd). by eauto.
  - intros val1 val2 d1 d2 H1 H2.
    apply Hholds in H1 as [_ H1]. apply Hholds in H2 as [_ H2].
    by apply Huniq.
Qed.

Lemma holds_unsetExisting st val old val' d :
  requestData_ st !! val = Some old →
  holds (unsetExisting st val old).1 val' d ↔ val' ≠ val ∧ holds st val' d.
Proof.
  intros E. unfold holds. rewrite unsetExisting_requestData by done.
  destruct (decide (val' = val)) as [->|Hne].
  - rewrite lookup_insert_eq. naive_solver.
  - rewrite lookup_insert_ne by done. naive_solver.
Qed.

Lemma index_ok_unsetExisting st val old :
  index_ok st → requestData_ st !! val = Some old →
  index_ok (unsetExisting st val old).1.
Proof.
  intros Hok E. eapply index_ok_remove; [done..| |].
  - intros val' d. by apply holds_unsetExisting.
  - destruct old as [x|]; simpl; [destruct (hasCallback x)|]; done.
Qed.

Lemma index_ok_clear st val :
  index_ok st → index_ok (clearContextData st val).1.
Proof.
  intros Hok. unfold clearContextData.
  destruct (requestData_ st !! val) as [old|] eqn:E; [|done].
  eapply index_ok_remove; [done..| |].
  - intros val' d. unfold holds.
    destruct old as [x|]; simpl; [destruct (hasCallback x)|]; simpl.
    all: destruct (decide (val' = val)) as [->|Hne];
      [rewrite lookup_delete_eq|rewrite lookup_delete_ne by done];
      naive_solver.
  - destruct old as [x|]; simpl; [destruct (hasCallback x)|]; done.
Qed.

(** A new object goes into a slot that holds no object. *)
Lemma index_ok_install st val data :
  index_ok st →
  (∀ d, ¬ holds st val d) →
  sole_owner data st →
  index_ok (install st val data).1.
Proof.
  intros [Hset Hexact Huniq] Hfree Hsole.
  assert (∀ val' d, holds (install st val data).1 val' d ↔
            (val' = val ∧ data = Some d) ∨ holds st val' d) as Hholds.
  { intros val' d. unfold holds. rewrite install_requestData.
    destruct (decide (val' = val)) as [->|Hne].
    - rewrite lookup_insert_eq. specialize (Hfree d). unfold holds in Hfree.
      naive_solver.
    - rewrite lookup_insert_ne by done. naive_solver. }
  split.
  - rewrite install_callbackData. destruct data as [d|]; [|done].
    destruct (hasCallback d); [by apply set_insert_is_set|done].
  - intros p. rewrite install_callbackData.
    setoid_rewrite Hholds.
    destruct data as [d|].
    + destruct (hasCallback d) eqn:Hd.
      * rewrite elem_of_set_insert, Hexact. split.
        -- intros [->|(val' & d' & ? & ? & ?)]; [by eauto 10|].
           exists val', d'. by eauto.
        -- intros (val' & d' & [[-> [= <-]]|?] & ? & ?); [by left|].
           right. by eauto.
      * rewrite Hexact. split.
        -- intros (val' & d' & ? & ? & ?). exists val', d'. by eauto.
        -- intros (val' & d' & [[-> [= <-]]|?] & ? & ?); [congruence|].
           by eauto.
    + rewrite Hexact. split.
      * intros (val' & d' & ? & ? & ?). exists val', d'. by eauto.
      * intros (val' & d' & [[-> ?]|?] & ? & ?); [done|]. by eauto.
  - intros val1 val2 d1 d2 H1 H2 Haddr.
    apply Hholds in H1, H2.
    destruct H1 as [[-> ->]|H1], H2 as [[-> E2]|H2].
    + by injection E2 as ->.
    + simpl in Hsole. by destruct (Hsole _ _ H2).
    + subst data. simpl in Hsole. by destruct (Hsole _ _ H1).
    + by apply Huniq.
Qed.

Lemma index_ok_doSetContextData st logged val data behaviour :
  index_ok st → sole_owner data st →
  index_ok (state_after (doSetContextData st logged val data behaviour)).
Proof.
  intros Hok Hsole. unfold doSetContextData.
  destruct (requestData_ st !! val) as [old|] eqn:E.
  - pose proof (index_ok_unsetExisting st val old Hok E) as Hok1.
    pose proof (holds_unsetExisting st val old) as Hholds.
    destruct (unsetExisting st val old) as [st1 ev1]. simpl in *.
    destruct behaviour; simpl; [done..|].
    assert (index_ok (install st1 val data).1) as Hok2.
    { apply index_ok_install; [done| |].
      - intros d Hd. apply Hholds in Hd; naive_solver.
      - destruct data as [d|]; [|done]. simpl in *.
        intros val' d' Hd'. apply Hholds in Hd' as [_ Hd']; [|done].
        by eapply Hsole. }
    by destruct (install st1 val data).
  - assert (index_ok (install st val data).1) as Hok2.
    { apply index_ok_install; [done| |done].
      intros d Hd. unfold holds in Hd. congruence. }
    by destruct (install st val data).
Qed.

End index.

(** ** Shallow copies *)

Section shallow_copy.
Implicit Types (m : gmap string handle) (l : list (string * handle)).

Lemma copy_loop l m0 ev0 :
  foldl (λ (acc : gmap string handle * list event) (entry : string * handle),
           let '(stored, ev) := constructPtr entry.2 in
           (<[entry.1 := stored]> acc.1, acc.2 ++ ev))
        (m0, ev0) l
  = (foldl (λ m entry, <[entry.1 := entry.2]> m) m0 l,
     ev0 ++ flat_map (λ entry, (constructPtr entry.2).2) l).
Proof.
  revert m0 ev0. induction l as [|[val v] l IH]; intros m0 ev0; simpl.
  - by rewrite app_nil_r.
  - destruct v as [d|]; simpl; rewrite IH; by rewrite <- ?app_assoc.
Qed.

Lemma insert_loop l m0 :
  NoDup l.*1 →
  foldl (λ m entry, <[entry.1 := entry.2]> m) m0 l = list_to_map l ∪ m0.
Proof.
  revert m0. induction l as [|[val v] l IH]; intros m0 Hnd.
  - simpl. by rewrite (left_id_L ∅ (∪)).
  - rewrite fmap_cons in Hnd. apply NoDup_cons in Hnd as [Hval Hnd].
    cbn [foldl list_to_map foldr fst snd uncurry]. rewrite IH by done.
    rewrite <- insert_union_l. symmetry.
    apply insert_union_r. by apply not_elem_of_list_to_map_1.
Qed.

Lemma entries_in_order_Permutation m : entries_in_order m ≡ₚ map_to_list m.
Proof. apply merge_sort_Permutation. Qed.

Lemma entries_in_order_NoDup m : NoDup (entries_in_order m).*1.
Proof.
  rewrite entries_in_order_Permutation. apply NoDup_fst_map_to_list.
Qed.

Lemma references_in_order m q :
  length (filter (λ entry : string * handle, addr <$> entry.2 = Some q)
                 (entries_in_order m))
  = references m q.
Proof. unfold references. by rewrite entries_in_order_Permutation. Qed.

Lemma copyEntries_spec m :
  copyEntries m
  = (m, flat_map (λ entry, (constructPtr entry.2).2) (entries_in_order m)).
Proof.
  unfold copyEntries. rewrite copy_loop. f_equal.
  rewrite insert_loop by apply entries_in_order_NoDup.
  rewrite (list_to_map_proper _ (map_to_list m)).
  - by rewrite list_to_map_to_list, (right_id_L ∅ (∪)).
  - apply entries_in_order_NoDup.
  - apply entries_in_order_Permutation.
Qed.

Lemma shallowCopy_state st : (shallowCopy st).1 = st.
Proof.
  unfold shallowCopy. rewrite copyEntries_spec. by destruct st.
Qed.

Lemma shallowCopy_trace st :
  (shallowCopy st).2
  = flat_map (λ entry, (constructPtr entry.2).2)
      (entries_in_order (requestData_ st)).
Proof. unfold shallowCopy. by rewrite copyEntries_spec. Qed.

Lemma callbacks_acquired l :
  callbacks (flat_map (λ entry, (constructPtr entry.2).2) l) = [].
Proof.
  induction l as [|[val [d|]] l IH]; simpl; try done.
Qed.

Lemma acquired_only_increments l e :
  e ∈ flat_map (λ entry, (constructPtr entry.2).2) l →
  ∃ q, e = KeepAliveInc q.
Proof.
  induction l as [|[val [d|]] l IH]; simpl.
  - by rewrite elem_of_nil.
  - rewrite elem_of_cons. naive_solver.
  - done.
Qed.

Lemma occurrences_acquired l q :
  occurrences (KeepAliveInc q)
    (flat_map (λ entry, (constructPtr entry.2).2) l)
  = length (filter (λ entry : string * handle, addr <$> entry.2 = Some q) l).
Proof.
  unfold occurrences.
  induction l as [|[val [d|]] l IH]; simpl; [done| |].
  - rewrite filter_cons. simpl.
    destruct (decide (addr d = q)) as [->|Hne].
    + rewrite bool_decide_eq_true_2, decide_True by done. simpl.
      by rewrite IH.
    + rewrite bool_decide_eq_false_2, decide_False by congruence. done.
  - rewrite filter_cons_False by done. done.
Qed.

Lemma replay_app h t1 t2 :
  replay h (t1 ++ t2) = replay h t1 ≫= λ h', replay h' t2.
Proof.
  revert h. induction t1 as [|e t1 IH]; intros h; simpl; [done|].
  destruct (replay_event h e); simpl; [apply IH|done].
Qed.

(** Replaying the increments of a copy: every object held by the entries
    has its counter raised once for each entry that holds it. *)
Lemma replay_acquired l (h : gmap ptr KeepAlive.object) :
  (∀ val d, (val, Some d) ∈ l →
     ∃ o, h !! addr d = Some o ∧ (0 ≤ KeepAlive.keepAliveCounter_ o)%Z) →
  ∃ h', replay h (flat_map (λ entry, (constructPtr entry.2).2) l) = Some h' ∧
        ∀ q, h' !! q =
             acquired (length (filter (λ entry : string * handle,
                                         addr <$> entry.2 = Some q) l))
               <$> h !! q.
Proof.
  revert h. induction l as [|[val [d|]] l IH]; intros h Hlive.
  - exists h. split; [done|]. intros q. simpl.
    destruct (h !! q) as [[c n]|]; [|done].
    unfold acquired. simpl. by rewrite Z.add_0_r.
  - destruct (Hlive val d ltac:(by left)) as (o & Ho & Hpos).
    cbn [flat_map constructPtr snd app replay replay_event]. rewrite Ho.
    cbn [mbind option_bind].
    unfold KeepAlive.constructPtr, KeepAlive.fetch_add.
    destruct (Z.geb_spec (KeepAlive.keepAliveCounter_ o) 0); [|lia].
    cbn [mbind option_bind].
    destruct (IH (<[addr d := acquired 1 o]> h)) as (h' & Hrun & Hh').
    { intros val' d' Hin.
      destruct (decide (addr d' = addr d)) as [->|Hne].
      - rewrite lookup_insert_eq. eexists. split; [done|]. simpl. lia.
      - rewrite lookup_insert_ne by done. apply (Hlive val'). by right. }
    exists h'. split; [exact Hrun|].
    intros q. rewrite Hh', filter_cons. cbn [snd fmap option_fmap option_map].
    destruct (decide (addr d = q)) as [<-|Hne].
    + rewrite decide_True by done. rewrite lookup_insert_eq, Ho. simpl.
      unfold acquired. simpl. f_equal. f_equal. lia.
    + rewrite decide_False by congruence.
      by rewrite lookup_insert_ne.
  - destruct (IH h) as (h' & Hrun & Hh').
    { intros val' d' Hin. apply (Hlive val'). by right. }
    exists h'. split; [exact Hrun|].
    intros q. by rewrite Hh', filter_cons_False.
Qed.

(** C5, as amended.  Every state reached from the empty one by
    [setContextData], [setContextDataIfAbsent], [overwriteContextData]
    and [clearContextData], each [unique_ptr] argument being the sole
    owner of its object (the state does not store it already), and by
    shallow copies, has as [callbackData_] exactly
    the addresses of the stored objects with a callback; the index has no
    address twice and no object is stored under two keys, so that an
    address leaves the index when its entry is cleared or replaced. *)
Theorem reachable_index_ok st :
  reachable st →
  index_ok st ∧ NoDup (callbackData_ st) ∧
  ∀ p, p ∈ callbackData_ st ↔
    ∃ val d, requestData_ st !! val = Some (Some d) ∧ addr d = p ∧
             hasCallback d = true.
Proof.
  intros Hreach.
  assert (index_ok st) as Hok.
  { induction Hreach.
    - apply index_ok_empty.
    - by apply index_ok_doSetContextData.
    - by apply index_ok_doSetContextData.
    - by apply index_ok_doSetContextData.
    - by apply index_ok_clear.
    - by rewrite shallowCopy_state. }
  split; [done|]. split.
  - apply is_set_NoDup, Hok.
  - apply Hok.
Qed.

Lemma reachable_index_ok_witness :
  let X := {| addr := 1%positive; hasCallback := true |} in
  let st := state_after (setContextData emptyState 0 "k" (Some X)) in
  reachable st ∧ callbackData_ st = [1%positive] ∧ index_ok st.
Proof.
  intros X st.
  assert (reachable st) as Hreach.
  { apply reach_set; [apply reach_empty|].
    intros val d' Hd'. unfold holds in Hd'. simpl in Hd'.
    rewrite lookup_empty in Hd'. discriminate. }
  split; [exact Hreach|]. split; [reflexivity|].
  exact (proj1 (reachable_index_ok st Hreach)).
Defined.

(** C5 as stated fails: the calls do not check that the object passed in
    is not stored already.  The same object stored under two keys, then
    one key cleared: the object is still stored, with its callback, and
    the index has lost it. *)
Lemma shared_object_breaks_index :
  let X := {| addr := 1%positive; hasCallback := true |} in
  let st1 := state_after (setContextData emptyState 0 "a" (Some X)) in
  let st2 := state_after (setContextData st1 0 "b" (Some X)) in
  let st3 := (clearContextData st2 "a").1 in
  getContextData st3 "b" = Some X ∧ callbackData_ st3 = [].
Proof. vm_compute. done. Qed.

End shallow_copy.

(** ** Switching contexts *)

Section switch.
Implicit Types (w : World) (c : ctx) (s : list ptr).

Lemma occurrences_app (e : event) (t1 t2 : list event) :
  occurrences e (t1 ++ t2) = occurrences e t1 + occurrences e t2.
Proof. unfold occurrences. by rewrite List.filter_app, length_app. Qed.

(** A callback applied to the elements of a duplicate-free list occurs
    once for each element and not at all for anything else. *)
Lemma occurrences_map (f : ptr → event) `{!Inj (=) (=) f} p s :
  NoDup s →
  occurrences (f p) (map f s) = if decide (p ∈ s) then 1 else 0.
Proof.
  unfold occurrences. induction s as [|q s IH]; intros Hnd.
  - by rewrite decide_False by apply not_elem_of_nil.
  - apply NoDup_cons in Hnd as [Hq Hnd]. cbn [map List.filter].
    destruct (decide (q = p)) as [->|Hne].
    + rewrite bool_decide_eq_true_2 by done. cbn [length].
      rewrite IH by done. rewrite (decide_False (P := p ∈ s)) by done.
      by rewrite decide_True by (by left).
    + rewrite bool_decide_eq_false_2
        by (intros Heq; by apply (inj f) in Heq).
      rewrite IH by done.
      destruct (decide (p ∈ s)) as [Hin|Hnin].
      * by rewrite decide_True by (by right).
      * rewrite decide_False; [done|]. rewrite elem_of_cons. naive_solver.
Qed.

Lemma occurrences_map_other (f g : ptr → event) p s :
  (∀ x y, f x ≠ g y) → occurrences (g p) (map f s) = 0.
Proof.
  intros Hfg. unfold occurrences. induction s as [|q s IH]; [done|].
  simpl. by rewrite bool_decide_eq_false_2.
Qed.

Lemma occurrences_difference (f : ptr → event) `{!Inj (=) (=) f}
    p data other :
  is_set data → is_set other →
  occurrences (f p) (exec_set_difference f data other)
  = if decide (p ∈ data ∧ p ∉ other) then 1 else 0.
Proof.
  intros Hd Ho. rewrite exec_set_difference_filter by done.
  rewrite (occurrences_map f) by by apply NoDup_filter, is_set_NoDup.
  apply decide_ext. rewrite list_elem_of_filter. naive_solver.
Qed.

Lemma elem_of_difference_callback (f : ptr → event) data other e :
  e ∈ exec_set_difference f data other → ∃ p, e = f p ∧ p ∈ data.
Proof.
  revert other. induction data as [|d data IH]; intros other.
  - simpl. by rewrite elem_of_nil.
  - induction other as [|o other IHo]; cbn [exec_set_difference].
    + rewrite elem_of_cons. intros [->|He].
      * exists d. split; [done|by left].
      * destruct (IH _ He) as (p & -> & Hp). exists p. split; [done|by right].
    + destruct (d <? o)%positive.
      * rewrite elem_of_cons. intros [->|He].
        -- exists d. split; [done|by left].
        -- destruct (IH _ He) as (p & -> & Hp).
           exists p. split; [done|by right].
      * destruct (o <? d)%positive; [done|].
        intros He. destruct (IH _ He) as (p & -> & Hp).
        exists p. split; [done|by right].
Qed.

(** C3.  A switch between two distinct contexts, both not null, calls
    [onUnset] once on each object in the index of the outgoing context
    and not in that of the incoming one, then assigns the slot, then
    calls [onSet] once on each object in the index of the incoming
    context and not in that of the outgoing one; an object in both
    indexes gets no call, and nothing else is called.  Afterwards the
    slot holds the incoming context, the contexts are as they were, and
    the previous context is returned. *)
Theorem setContext_difference w a b sa sb :
  getStaticContext w = Some a → a ≠ b →
  contexts w !! a = Some sa → contexts w !! b = Some sb →
  is_set (callbackData_ sa) → is_set (callbackData_ sb) →
  ∃ w' unset set,
    setContext w (Some b)
    = Some (Some a, w', unset ++ [StaticCtxAssign (Some b)] ++ set) ∧
    getStaticContext w' = Some b ∧
    contexts w' = contexts w ∧
    defaultContext w' = defaultContext w ∧
    (∀ p, occurrences (OnUnset p) unset =
          if decide (p ∈ callbackData_ sa ∧ p ∉ callbackData_ sb)
          then 1 else 0) ∧
    (∀ e, e ∈ unset → ∃ p, e = OnUnset p) ∧
    (∀ p, occurrences (OnSet p) set =
          if decide (p ∈ callbackData_ sb ∧ p ∉ callbackData_ sa)
          then 1 else 0) ∧
    (∀ e, e ∈ set → ∃ p, e = OnSet p).
Proof.
  intros Hcur Hne Ha Hb Hsa Hsb.
  exists (setStaticContext w (Some b)),
         (exec_set_difference OnUnset (callbackData_ sa) (callbackData_ sb)),
         (exec_set_difference OnSet (callbackData_ sb) (callbackData_ sa)).
  split_and!.
  - unfold setContext. cbv zeta. rewrite Hcur.
    rewrite decide_False by (intros Heq; injection Heq as Heq; by apply Hne).
    cbn. rewrite Hb. cbn. rewrite Ha. done.
  - done.
  - done.
  - done.
  - intros p. exact (occurrences_difference OnUnset p _ _ Hsa Hsb).
  - intros e He. apply elem_of_difference_callback in He. naive_solver.
  - intros p. exact (occurrences_difference OnSet p _ _ Hsb Hsa).
  - intros e He. apply elem_of_difference_callback in He. naive_solver.
Qed.

Lemma setContext_difference_witness :
  let sa := {| requestData_ := ∅; callbackData_ := [1; 2]%positive |} in
  let sb := {| requestData_ := ∅; callbackData_ := [2; 3]%positive |} in
  let w := {| contexts := <[1%positive := sa]> {[2%positive := sb]};
              staticCtx := Some 1%positive; defaultContext := None |} in
  (getStaticContext w = Some 1%positive ∧ 1%positive ≠ 2%positive ∧
   is_set (callbackData_ sa) ∧ is_set (callbackData_ sb)) ∧
  ∃ w' unset set,
    setContext w (Some 2%positive)
    = Some (Some 1%positive, w',
            unset ++ [StaticCtxAssign (Some 2%positive)] ++ set) ∧
    getStaticContext w' = Some 2%positive ∧
    occurrences (OnUnset 1%positive) unset = 1 ∧
    occurrences (OnSet 3%positive) set = 1 ∧
    occurrences (OnUnset 2%positive) unset = 0 ∧
    occurrences (OnSet 2%positive) set = 0.
Proof.
  intros sa sb w.
  assert (is_set (callbackData_ sa)) as Hsa.
  { repeat constructor. }
  assert (is_set (callbackData_ sb)) as Hsb.
  { repeat constructor. }
  split; [split_and!; [reflexivity|discriminate|exact Hsa|exact Hsb]|].
  destruct (setContext_difference w 1%positive 2%positive sa sb
              eq_refl ltac:(discriminate) eq_refl eq_refl Hsa Hsb)
    as (w' & unset & set & Hrun & Hslot & _ & _ & Hunset & _ & Hset & _).
  exists w', unset, set. split; [exact Hrun|]. split; [exact Hslot|].
  rewrite !Hunset, !Hset. vm_compute. done.
Defined.

(** C9.  [setContext] with the context that is already in the slot, the
    null context included, returns it, changes nothing and calls
    nothing. *)
Theorem setContext_same w :
  setContext w (getStaticContext w) = Some (getStaticContext w, w, []) ∧
  ∀ c, setContext w c = Some (c, w, []) ∨ c ≠ getStaticContext w.
Proof.
  split.
  - unfold setContext. by rewrite decide_True.
  - intros c. unfold setContext.
    destruct (decide (c = getStaticContext w)); [by left|by right].
Qed.

(** C4.  With a current context, [setShallowCopyContext] creates a new
    context whose [callbackData_] is the parent's and whose
    [requestData_] has, under every key of the parent, the parent's
    pointer itself, null where the parent has null; each stored pointer
    went through one [constructPtr], so that the counter of an object is
    raised once for each key that holds it, with no [DCHECK] failing.  The
    parent is left as it was, the child is put in the slot without any
    [onSet] or [onUnset], and the parent is returned. *)
Theorem setShallowCopyContext_shares w p ps :
  getStaticContext w = Some p → contexts w !! p = Some ps →
  ∃ child cs ev,
    setShallowCopyContext w
    = Some (Some p,
            {| contexts := <[child := cs]> (contexts w);
               staticCtx := Some child;
               defaultContext := defaultContext w |},
            ev) ∧
    contexts w !! child = None ∧
    <[child := cs]> (contexts w) !! p = Some ps ∧
    callbackData_ cs = callbackData_ ps ∧
    (∀ val, requestData_ cs !! val = requestData_ ps !! val) ∧
    callbacks ev = [] ∧
    (∀ e, e ∈ ev → ∃ q, e = KeepAliveInc q) ∧
    (∀ q, occurrences (KeepAliveInc q) ev = references (requestData_ ps) q) ∧
    (∀ h : gmap ptr KeepAlive.object,
       (∀ val d, holds ps val d →
          ∃ o, h !! addr d = Some o ∧ (0 ≤ KeepAlive.keepAliveCounter_ o)%Z) →
       ∃ h', replay h ev = Some h' ∧
             ∀ q, h' !! q = acquired (references (requestData_ ps) q)
                              <$> h !! q).
Proof.
  intros Hcur Hp.
  pose proof (is_fresh (dom (contexts w))) as Hfresh.
  rewrite not_elem_of_dom in Hfresh.
  exists (fresh (dom (contexts w))), (shallowCopy ps).1, (shallowCopy ps).2.
  split_and!.
  - unfold setShallowCopyContext. rewrite Hcur, Hp. simpl.
    by destruct (shallowCopy ps).
  - done.
  - rewrite lookup_insert_ne; [done|]. intros Heq. congruence.
  - by rewrite shallowCopy_state.
  - intros val. by rewrite shallowCopy_state.
  - rewrite shallowCopy_trace. apply callbacks_acquired.
  - intros e. rewrite shallowCopy_trace. apply acquired_only_increments.
  - intros q. rewrite shallowCopy_trace, occurrences_acquired.
    apply references_in_order.
  - intros h Hlive. rewrite shallowCopy_trace.
    destruct (replay_acquired (entries_in_order (requestData_ ps)) h)
      as (h' & Hrun & Hh').
    { intros val d Hin. apply (Hlive val).
      rewrite entries_in_order_Permutation in Hin.
      by apply elem_of_map_to_list. }
    exists h'. split; [done|]. intros q.
    by rewrite Hh', references_in_order.
Qed.

Lemma setShallowCopyContext_shares_witness :
  let X := {| addr := 5%positive; hasCallback := true |} in
  let ps := {| requestData_ := {[ "k"%string := Some X ]};
               callbackData_ := [5%positive] |} in
  let w := {| contexts := {[1%positive := ps]};
              staticCtx := Some 1%positive; defaultContext := None |} in
  (getStaticContext w = Some 1%positive ∧
   contexts w !! 1%positive = Some ps) ∧
  ∃ child cs ev,
    setShallowCopyContext w
    = Some (Some 1%positive,
            {| contexts := <[child := cs]> (contexts w);
               staticCtx := Some child;
               defaultContext := defaultContext w |},
            ev) ∧
    requestData_ cs !! "k"%string = Some (Some X) ∧
    callbackData_ cs = [5%positive] ∧
    callbacks ev = [].
Proof.
  intros X ps w. split; [split; reflexivity|].
  destruct (setShallowCopyContext_shares w 1%positive ps eq_refl eq_refl)
    as (child & cs & ev & Hrun & _ & _ & Hcb & Hreq & Hev & _).
  exists child, cs, ev.
  split; [exact Hrun|]. split; [|split; [exact Hcb|exact Hev]].
  rewrite Hreq. reflexivity.
Defined.

(** C10.  With an empty slot [RequestContext::get] returns the address
    of the static [defaultContext], constructing it on the first call and
    returning the same object on later calls, and leaves the slot empty:
    a later [setContext] returns the null context as the previous one and
    calls no [onUnset], and a later [setShallowCopyContext] creates an
    empty child. *)
Theorem get_default_not_installed w :
  getStaticContext w = None →
  let w' := (get w).2 in
  (get w).1 = DefaultContext ∧
  (get w').1 = DefaultContext ∧ (get w').2 = w' ∧
  getStaticContext w' = None ∧
  contexts w' = contexts w ∧
  defaultContext w' = Some (default emptyState (defaultContext w)) ∧
  (∀ c, setContext w' c =
        match c with
        | None => Some (None, w', [])
        | Some n =>
            (λ sn, (None, setStaticContext w' c,
                    [StaticCtxAssign c] ++ onSet sn))
              <$> contexts w !! n
        end) ∧
  ∃ child,
    setShallowCopyContext w'
    = Some (None,
            {| contexts := <[child := emptyState]> (contexts w);
               staticCtx := Some child;
               defaultContext := defaultContext w' |},
            []).
Proof.
  intros Hcur. unfold getStaticContext in Hcur.
  unfold get, getStaticContext. rewrite Hcur. cbn [fst snd staticCtx].
  split_and!; try done.
  - intros [n|].
    + unfold setContext, getStaticContext. cbn [staticCtx contexts].
      rewrite decide_False by done. cbn.
      by destruct (contexts w !! n).
    + unfold setContext, getStaticContext. cbn [staticCtx].
      by rewrite decide_True.
  - eexists. unfold setShallowCopyContext, getStaticContext. by cbn.
Qed.

Lemma get_default_not_installed_witness :
  let w := {| contexts := ∅; staticCtx := None; defaultContext := None |} in
  getStaticContext w = None ∧
  (get w).1 = DefaultContext ∧ getStaticContext (get w).2 = None.
Proof.
  intros w. split; [reflexivity|].
  destruct (get_default_not_installed w eq_refl)
    as (Hget & _ & _ & Hslot & _).
  split; [exact Hget|exact Hslot].
Defined.

End switch.

(** * Further properties *)

(** ** Reference counting: when the assertions fail, and borrowed
    references *)

Module KeepAliveMore.
Import KeepAlive KeepAliveFacts.
Local Open Scope Z_scope.

Lemma run_snoc_Ok o t x o2 :
  run o (t ++ [x]) = Ok o2 → ∃ o1, run o t = Ok o1 ∧ step o1 x = Ok o2.
Proof.
  rewrite run_snoc. destruct (run o t) as [o1|]; [|done]. eauto.
Qed.

Lemma releases_covered_snoc t x :
  releases_covered t →
  (x = Release → releases t < acquires t) →
  releases_covered (t ++ [x]).
Proof.
  intros Hcov Hx n Hn.
  destruct (decide (n < length t)%nat) as [Hlt|Hge].
  - rewrite lookup_app_l in Hn by done.
    rewrite take_app_le by lia. by apply Hcov.
  - pose proof (lookup_lt_Some _ _ _ Hn) as Hlen.
    rewrite length_app in Hlen. simpl in Hlen.
    assert (n = length t) as -> by lia.
    rewrite lookup_app_r, Nat.sub_diag in Hn by lia.
    injection Hn as ->. rewrite take_app_length. by apply Hx.
Qed.

(** X1.  On a freshly constructed object a sequence of [constructPtr] and
    [DestructPtr] passes every [DCHECK] exactly when each release is
    preceded by more acquires than releases; the counter then equals the
    acquires minus the releases. *)
Theorem run_Ok_iff_covered (t : list op) :
  ((∃ o, run constructed t = Ok o) ↔ releases_covered t) ∧
  ∀ o, run constructed t = Ok o →
       keepAliveCounter_ o = acquires t - releases t.
Proof.
  assert (∀ o, run constructed t = Ok o → releases_covered t) as Hconv.
  { induction t as [|x t IH] using rev_ind; intros o Hrun.
    - intros n Hn. by rewrite lookup_nil in Hn.
    - apply run_snoc_Ok in Hrun as (o1 & Hrun1 & Hstep).
      pose proof (IH _ Hrun1) as Hcov.
      apply releases_covered_snoc; [done|]. intros ->.
      destruct (run_covered t Hcov) as (o1' & Hrun1' & Hc & _).
      rewrite Hrun1 in Hrun1'. injection Hrun1' as <-.
      simpl in Hstep. unfold DestructPtr, fetch_sub in Hstep.
      destruct (Z.gtb_spec (keepAliveCounter_ o1) 0); [lia|done]. }
  split; [split|].
  - intros [o Hrun]. by eapply Hconv.
  - intros Hcov. destruct (run_covered t Hcov) as (o & Hrun & _). eauto.
  - intros o Hrun.
    destruct (run_covered t (Hconv _ Hrun)) as (o' & Hrun' & Hc & _).
    rewrite Hrun in Hrun'. by injection Hrun' as <-.
Qed.

(** X2.  References taken and released again on an object that somebody
    else keeps referenced (counter at least one) pass every [DCHECK] and
    never reach [delete]: the counter moves by the acquires minus the
    releases and the object is not deleted. *)
Theorem borrowed_references_keep_object (o : object) (t : list op) :
  1 ≤ keepAliveCounter_ o →
  releases_covered t →
  run o t = Ok {| keepAliveCounter_ :=
                    keepAliveCounter_ o + (acquires t - releases t);
                  deleted := deleted o |}.
Proof.
  intros Ho. induction t as [|x t IH] using rev_ind; intros Hcov.
  - simpl. destruct o as [c n]. simpl. do 2 f_equal.
    unfold acquires, releases. simpl. lia.
  - rewrite run_snoc, IH by by eapply releases_covered_prefix.
    rewrite acquires_snoc, releases_snoc.
    destruct (run_covered _ (releases_covered_prefix _ _ Hcov))
      as (o' & _ & Hc' & Hpos').
    rewrite Hc' in Hpos'.
    destruct x; simpl.
    + unfold constructPtr, fetch_add. simpl.
      destruct (Z.geb_spec (keepAliveCounter_ o + (acquires t - releases t)) 0);
        [|lia].
      do 2 f_equal. lia.
    + assert (releases t < acquires t) as Hlt.
      { specialize (Hcov (length t)).
        rewrite lookup_app_r, Nat.sub_diag, take_app_length in Hcov by lia.
        by apply Hcov. }
      unfold DestructPtr, fetch_sub. simpl.
      destruct (Z.gtb_spec (keepAliveCounter_ o + (acquires t - releases t)) 0);
        [|lia].
      destruct (Z.eqb_spec (keepAliveCounter_ o + (acquires t - releases t)) 1);
        [lia|].
      do 2 f_equal. lia.
Qed.

Lemma borrowed_references_keep_object_witness :
  let o := {| keepAliveCounter_ := 1; deleted := 0 |} in
  (1 ≤ keepAliveCounter_ o ∧ releases_covered [Acquire; Release]) ∧
  run o [Acquire; Release] = Ok o.
Proof.
  intros o.
  assert (releases_covered [Acquire; Release]) as Hcov.
  { intros [|[|n]] Hn; simpl in Hn; try discriminate.
    vm_compute. reflexivity. }
  split; [split; [vm_compute; discriminate|exact Hcov]|].
  exact (borrowed_references_keep_object o [Acquire; Release]
           ltac:(vm_compute; discriminate) Hcov).
Defined.

End KeepAliveMore.

(** ** The walk over two callback sets and the switch, further *)

Section switch_more.
Implicit Types (w : World) (c : ctx) (s : list ptr).

(** The elements the walk applies [exec] to do not depend on [exec]. *)
Lemma exec_set_difference_elements (f g : ptr → event) data other :
  ∃ l, exec_set_difference f data other = map f l ∧
       exec_set_difference g data other = map g l.
Proof.
  revert other. induction data as [|d data IH]; intros other.
  - by exists [].
  - induction other as [|o other IHo]; cbn [exec_set_difference].
    + destruct (IH []) as (l & -> & ->). by exists (d :: l).
    + destruct (d <? o)%positive.
      * destruct (IH (o :: other)) as (l & -> & ->). by exists (d :: l).
      * destruct (o <? d)%positive; [exact IHo|]. apply IH.
Qed.

Lemma exec_set_difference_self exec s : exec_set_difference exec s s = [].
Proof.
  induction s as [|d s IH]; [done|].
  cbn [exec_set_difference]. by rewrite Pos.ltb_irrefl.
Qed.

Lemma exec_set_difference_nil_r exec data :
  exec_set_difference exec data [] = map exec data.
Proof. induction data as [|d data IH]; [done|]. simpl. by rewrite IH. Qed.

Lemma is_set_filter (P : ptr → Prop) `{!∀ x, Decision (P x)} s :
  is_set s → is_set (filter P s).
Proof.
  induction s as [|q s IH]; intros Hs; [done|].
  apply is_set_cons_inv in Hs as [Hs Hall].
  rewrite filter_cons. destruct (decide (P q)); [|by apply IH].
  apply is_set_cons; [by apply IH|].
  intros x Hx. apply list_elem_of_filter in Hx as [_ Hx]. by apply Hall.
Qed.

(** X3.  On two ordered sets the walk of [exec_set_difference] applies
    [exec] to the elements of the first set that are not in the second:
    to each of them once, in increasing order, and to nothing else. *)
Theorem exec_set_difference_ordered (exec : ptr → event) data other :
  is_set data → is_set other →
  ∃ l, exec_set_difference exec data other = map exec l ∧
       is_set l ∧ ∀ p, p ∈ l ↔ p ∈ data ∧ p ∉ other.
Proof.
  intros Hd Ho. exists (filter (λ d, d ∉ other) data). split_and!.
  - by apply exec_set_difference_filter.
  - by apply is_set_filter.
  - intros p. rewrite list_elem_of_filter. naive_solver.
Qed.

Lemma exec_set_difference_ordered_witness :
  (is_set [1; 3; 5]%positive ∧ is_set [3; 4]%positive) ∧
  ∃ l, exec_set_difference OnUnset [1; 3; 5]%positive [3; 4]%positive
       = map OnUnset l ∧
       is_set l ∧
       ∀ p, p ∈ l ↔ p ∈ [1; 3; 5]%positive ∧ p ∉ [3; 4]%positive.
Proof.
  assert (is_set [1; 3; 5]%positive) as H1 by repeat constructor.
  assert (is_set [3; 4]%positive) as H2 by repeat constructor.
  split; [by split|].
  exact (exec_set_difference_ordered OnUnset _ _ H1 H2).
Defined.

(** X4.  The walk at its ends: against an empty second set [exec] is
    applied to every element of the first, in order; with an empty first
    set, or with the same set on both sides, it is applied to nothing. *)
Theorem exec_set_difference_ends (exec : ptr → event) s :
  exec_set_difference exec s [] = map exec s ∧
  exec_set_difference exec [] s = [] ∧
  exec_set_difference exec s s = [].
Proof.
  split_and!; [apply exec_set_difference_nil_r|done
              |apply exec_set_difference_self].
Qed.

End switch_more.

Section switch_world.
Implicit Types (w : World) (c : ctx) (s : list ptr).

Lemma occurrences_nil (e : event) : occurrences e [] = 0.
Proof. done. Qed.

Lemma occurrences_assign (e : event) c :
  is_callback e = true → occurrences e [StaticCtxAssign c] = 0.
Proof.
  intros He. unfold occurrences. simpl.
  rewrite bool_decide_eq_false_2; [done|]. by intros <-.
Qed.

Lemma occurrences_assign_cons (e : event) c t :
  is_callback e = true → occurrences e (StaticCtxAssign c :: t) = occurrences e t.
Proof.
  intros He. unfold occurrences. simpl.
  rewrite bool_decide_eq_false_2; [done|]. by intros <-.
Qed.

(** Counting a callback over the objects it was applied to is counting
    the object. *)
Lemma occurrences_map_count (f : ptr → event) `{!Inj (=) (=) f} p s :
  occurrences (f p) (map f s) = length (filter (λ q, q = p) s).
Proof.
  unfold occurrences. induction s as [|q s IH]; [done|].
  cbn [map List.filter]. rewrite filter_cons.
  destruct (decide (q = p)) as [->|Hne].
  - rewrite bool_decide_eq_true_2 by done. simpl. by rewrite IH.
  - rewrite bool_decide_eq_false_2; [done|].
    intros Heq. by apply (inj f) in Heq.
Qed.

Ltac count_callbacks :=
  rewrite ?occurrences_app, ?occurrences_assign_cons, ?occurrences_assign,
    ?occurrences_nil, ?(occurrences_map_other OnSet OnUnset),
    ?(occurrences_map_other OnUnset OnSet),
    ?(occurrences_map_count OnUnset), ?(occurrences_map_count OnSet)
    by done;
  lia.

Lemma setStaticContext_back w c :
  setStaticContext (setStaticContext w c) (getStaticContext w) = w.
Proof. by destruct w. Qed.

(** X5.  A switch with a null side (lines 207-215).  Entering a context
    from an empty slot assigns the slot and then calls [onSet] on every
    object of its callback set, in order; leaving a context for the null
    one first calls [onUnset] on every object of its callback set, in
    order, and then assigns the slot.  Afterwards the slot holds what was
    passed in, the contexts are as they were, and the previous content of
    the slot is returned. *)
Theorem setContext_null_side w n sn :
  contexts w !! n = Some sn →
  (getStaticContext w = None →
   ∃ w', setContext w (Some n)
         = Some (None, w',
                 StaticCtxAssign (Some n) :: map OnSet (callbackData_ sn)) ∧
         getStaticContext w' = Some n ∧
         contexts w' = contexts w ∧
         defaultContext w' = defaultContext w) ∧
  (getStaticContext w = Some n →
   ∃ w', setContext w None
         = Some (Some n, w',
                 map OnUnset (callbackData_ sn) ++ [StaticCtxAssign None]) ∧
         getStaticContext w' = None ∧
         contexts w' = contexts w ∧
         defaultContext w' = defaultContext w).
Proof.
  intros Hn. split; intros Hcur.
  - exists (setStaticContext w (Some n)). split; [|done].
    unfold setContext; cbv zeta; rewrite Hcur.
    rewrite decide_False by done. cbn. by rewrite Hn.
  - exists (setStaticContext w None). split; [|done].
    unfold setContext; cbv zeta; rewrite Hcur.
    rewrite decide_False by done. cbn. by rewrite Hn.
Qed.

Lemma setContext_null_side_witness :
  let sn := {| requestData_ := ∅; callbackData_ := [4; 7]%positive |} in
  let w := {| contexts := {[1%positive := sn]};
              staticCtx := None; defaultContext := None |} in
  (contexts w !! 1%positive = Some sn ∧ getStaticContext w = None) ∧
  ∃ w', setContext w (Some 1%positive)
        = Some (None, w',
                [StaticCtxAssign (Some 1%positive);
                 OnSet 4%positive; OnSet 7%positive]) ∧
        getStaticContext w' = Some 1%positive ∧
        contexts w' = contexts w ∧
        defaultContext w' = defaultContext w.
Proof.
  intros sn w. split; [by split|].
  exact (proj1 (setContext_null_side w 1%positive sn eq_refl) eq_refl).
Defined.

(** X6.  There and back.  A switch from the context in the slot to
    another one, followed by the switch back, both contexts existing,
    leaves everything as it was; the second call returns the context the
    first installed, and it calls [onSet] on exactly the objects the
    first called [onUnset] on, and [onUnset] on exactly those the first
    called [onSet] on, as many times. *)
Theorem setContext_there_and_back w c :
  c ≠ getStaticContext w →
  (∀ n, getStaticContext w = Some n → is_Some (contexts w !! n)) →
  (∀ n, c = Some n → is_Some (contexts w !! n)) →
  ∃ t1 t2,
    setContext w c = Some (getStaticContext w, setStaticContext w c, t1) ∧
    setContext (setStaticContext w c) (getStaticContext w)
    = Some (c, w, t2) ∧
    ∀ p, occurrences (OnUnset p) t1 = occurrences (OnSet p) t2 ∧
         occurrences (OnSet p) t1 = occurrences (OnUnset p) t2.
Proof.
  intros Hne Hcur Hnew.
  destruct w as [cs cur dflt]. unfold getStaticContext in *. simpl in *.
  unfold setContext, getStaticContext, setStaticContext. simpl.
  rewrite decide_False by done.
  rewrite (decide_False (P := cur = c)) by done.
  destruct c as [b|], cur as [a|]; try done.
  - destruct (Hcur a eq_refl) as [sa Ha].
    destruct (Hnew b eq_refl) as [sb Hb].
    rewrite Ha, Hb. cbn.
    destruct (exec_set_difference_elements OnUnset OnSet
                (callbackData_ sa) (callbackData_ sb)) as (l1 & -> & ->).
    destruct (exec_set_difference_elements OnUnset OnSet
                (callbackData_ sb) (callbackData_ sa)) as (l2 & -> & ->).
    eexists _, _. split; [done|]. split; [done|].
    intros p. count_callbacks.
  - destruct (Hnew b eq_refl) as [sb Hb]. rewrite Hb. cbn.
    eexists _, _. split; [done|]. split; [done|].
    intros p. unfold onSet, onUnset. count_callbacks.
  - destruct (Hcur a eq_refl) as [sa Ha]. rewrite Ha. cbn.
    eexists _, _. split; [done|]. split; [done|].
    intros p. unfold onSet, onUnset. count_callbacks.
Qed.

Lemma setContext_there_and_back_witness :
  let sa := {| requestData_ := ∅; callbackData_ := [1; 2]%positive |} in
  let sb := {| requestData_ := ∅; callbackData_ := [2; 3]%positive |} in
  let w := {| contexts := <[1%positive := sa]> {[2%positive := sb]};
              staticCtx := Some 1%positive; defaultContext := None |} in
  Some 2%positive ≠ getStaticContext w ∧
  ∃ t1 t2,
    setContext w (Some 2%positive)
    = Some (Some 1%positive, setStaticContext w (Some 2%positive), t1) ∧
    setContext (setStaticContext w (Some 2%positive)) (Some 1%positive)
    = Some (Some 2%positive, w, t2) ∧
    ∀ p, occurrences (OnUnset p) t1 = occurrences (OnSet p) t2 ∧
         occurrences (OnSet p) t1 = occurrences (OnUnset p) t2.
Proof.
  intros sa sb w. split; [discriminate|].
  apply (setContext_there_and_back w (Some 2%positive)).
  - discriminate.
  - intros n Hn. injection Hn as <-. eexists. reflexivity.
  - intros n Hn. injection Hn as <-. eexists. reflexivity.
Defined.



End switch_world.

(** ** The store, further: frames, ownership, round trip *)

Section store_more.
Implicit Types (st : State) (val : string) (data old : handle).

Lemma doSetContextData_requestData st logged val data behaviour :
  requestData_ (state_after (doSetContextData st logged val data behaviour))
  = match requestData_ st !! val, behaviour with
    | Some _, SET_IF_ABSENT => requestData_ st
    | Some _, SET => <[val := None]> (requestData_ st)
    | _, _ => <[val := data]> (requestData_ st)
    end.
Proof.
  unfold doSetContextData.
  destruct (requestData_ st !! val) as [old|] eqn:E.
  - pose proof (unsetExisting_requestData st val old E) as H1.
    destruct (unsetExisting st val old) as [st1 ev1]. simpl in H1.
    destruct behaviour; simpl; try done.
    pose proof (install_requestData st1 val data) as H2.
    destruct (install st1 val data) as [st2 ev2]. simpl in *.
    by rewrite H2, H1, insert_insert_eq.
  - pose proof (install_requestData st val data) as H2.
    destruct (install st val data) as [st2 ev2].
    by destruct behaviour.
Qed.

(** X8.  Whatever the behaviour and the state, after [doSetContextData]
    the key occupies a slot and every other key reads as before; the call
    returns false only as [SET_IF_ABSENT] on a key that was present, and
    then it has changed nothing and called nothing. *)
Theorem doSetContextData_frame st logged val data behaviour :
  let r := doSetContextData st logged val data behaviour in
  hasContextData (state_after r) val = true ∧
  (∀ val', val' ≠ val →
     requestData_ (state_after r) !! val' = requestData_ st !! val') ∧
  (returned r = false ↔
     behaviour = SET_IF_ABSENT ∧ hasContextData st val = true) ∧
  (returned r = false → state_after r = st ∧ trace r = []).
Proof.
  intros r. subst r. split_and!.
  - unfold hasContextData. apply bool_decide_eq_true.
    rewrite doSetContextData_requestData.
    destruct (requestData_ st !! val) as [old|] eqn:E;
      [destruct behaviour|]; rewrite ?lookup_insert_eq, ?E; eauto.
  - intros val' Hne. rewrite doSetContextData_requestData.
    destruct (requestData_ st !! val) as [old|];
      [destruct behaviour|]; by rewrite ?lookup_insert_ne.
  - destruct (requestData_ st !! val) as [old|] eqn:E.
    + assert (hasContextData st val = true) as ->.
      { unfold hasContextData. apply bool_decide_eq_true. by rewrite E. }
      unfold doSetContextData. rewrite E.
      destruct (unsetExisting st val old), (install s val data).
      destruct behaviour; simpl; naive_solver.
    + assert (hasContextData st val = false) as ->.
      { unfold hasContextData. apply bool_decide_eq_false. rewrite E.
        by intros [? ?]. }
      rewrite doSetContextData_absent by done. simpl. naive_solver.
  - unfold doSetContextData.
    destruct (requestData_ st !! val) as [old|] eqn:E.
    + destruct (unsetExisting st val old), (install s val data).
      by destruct behaviour.
    + by destruct (install st val data).
Qed.

Lemma holds_install st val data val' d :
  (∀ d', ¬ holds st val d') →
  holds (install st val data).1 val' d ↔
  (val' = val ∧ data = Some d) ∨ holds st val' d.
Proof.
  intros Hfree. unfold holds. rewrite install_requestData.
  destruct (decide (val' = val)) as [->|Hne].
  - rewrite lookup_insert_eq. specialize (Hfree d). unfold holds in Hfree.
    naive_solver.
  - rewrite lookup_insert_ne by done. naive_solver.
Qed.

(** X9.  Ownership is neither lost nor doubled.  For an object that the
    caller alone owns, after [doSetContextData] either the store holds it
    under the key and the caller's [unique_ptr] is empty, or the
    [unique_ptr] still holds it and the store holds it under no key.  The
    first is the case exactly when the key was absent or the behaviour is
    [OVERWRITE]. *)
Theorem doSetContextData_ownership st logged val d behaviour :
  sole_owner (Some d) st →
  let r := doSetContextData st logged val (Some d) behaviour in
  ((data_after r = None ∧ holds (state_after r) val d) ∨
   (data_after r = Some d ∧ ∀ val', ¬ holds (state_after r) val' d)) ∧
  (data_after r = None ↔
     requestData_ st !! val = None ∨ behaviour = OVERWRITE).
Proof.
  intros Hsole r. subst r. simpl in Hsole.
  assert (∀ val', ¬ holds st val' d) as Hnot.
  { intros val' Hd. by apply (Hsole _ _ Hd). }
  pose proof (doSetContextData_requestData st logged val (Some d) behaviour)
    as Hreq.
  unfold doSetContextData in *.
  destruct (requestData_ st !! val) as [old|] eqn:E.
  - destruct (unsetExisting st val old) as [st1 ev1].
    destruct (install st1 val (Some d)) as [st2 ev2].
    destruct behaviour; simpl in *.
    + split; [right|naive_solver]. split; [done|].
      intros val' Hd. unfold holds in Hd. rewrite Hreq in Hd.
      destruct (decide (val' = val)) as [->|Hne].
      * by rewrite lookup_insert_eq in Hd.
      * rewrite lookup_insert_ne in Hd by done. by apply (Hnot val').
    + split; [right|naive_solver]. split; [done|exact Hnot].
    + split; [left|naive_solver]. split; [done|].
      unfold holds. by rewrite Hreq, lookup_insert_eq.
  - destruct (install st val (Some d)) as [st2 ev2].
    assert (holds st2 val d) as Hd.
    { unfold holds. destruct behaviour; simpl in Hreq;
        by rewrite Hreq, lookup_insert_eq. }
    split; [left|]; naive_solver.
Qed.

Lemma doSetContextData_ownership_witness :
  let d := {| addr := 1%positive; hasCallback := true |} in
  let r := doSetContextData emptyState 0 "k" (Some d) SET in
  sole_owner (Some d) emptyState ∧
  ((data_after r = None ∧ holds (state_after r) "k" d) ∨
   (data_after r = Some d ∧ ∀ val', ¬ holds (state_after r) val' d)).
Proof.
  intros d r.
  assert (sole_owner (Some d) emptyState) as Hsole.
  { intros val d' Hd'. unfold holds in Hd'. simpl in Hd'.
    rewrite lookup_empty in Hd'. discriminate. }
  split; [exact Hsole|].
  exact (proj1 (doSetContextData_ownership emptyState 0 "k" d SET Hsole)).
Defined.

End store_more.

Section store_round_trip.
Implicit Types (st : State) (val : string) (data old : handle).

(** X10.  After [clearContextData] the key occupies no slot and every
    other key reads as before; the call makes one [onUnset] call, on the
    object it removes, when that object has a callback, and no other
    call. *)
Theorem clearContextData_removes st val :
  let st' := (clearContextData st val).1 in
  hasContextData st' val = false ∧
  (∀ val', val' ≠ val →
     requestData_ st' !! val' = requestData_ st !! val') ∧
  callbacks (clearContextData st val).2
  = match requestData_ st !! val with
    | Some (Some d) => if hasCallback d then [OnUnset (addr d)] else []
    | _ => []
    end.
Proof.
  intros st'. subst st'. split_and!.
  - unfold hasContextData. apply bool_decide_eq_false.
    rewrite clearContextData_lookup. by intros [? ?].
  - intros val' Hne. unfold clearContextData.
    destruct (requestData_ st !! val) as [[d|]|]; simpl; [| |done].
    + destruct (hasCallback d); simpl; by rewrite lookup_delete_ne.
    + by rewrite lookup_delete_ne.
  - unfold clearContextData.
    destruct (requestData_ st !! val) as [[d|]|]; simpl; [|done..].
    by destruct (hasCallback d).
Qed.

Lemma set_erase_insert p (s : list ptr) :
  is_set s → p ∉ s → set_erase p (set_insert p s) = s.
Proof.
  intros Hs Hp. apply is_set_ext; [|done|].
  - by apply set_erase_is_set, set_insert_is_set.
  - intros q. rewrite elem_of_set_erase by by apply set_insert_is_set.
    rewrite elem_of_set_insert. split; [naive_solver|].
    intros Hq. split; [|by right]. by intros ->.
Qed.

Lemma sole_owner_not_indexed st d :
  index_ok st → sole_owner (Some d) st → addr d ∉ callbackData_ st.
Proof.
  intros Hok Hsole Hin. apply (index_exact _ Hok) in Hin.
  destruct Hin as (val & d' & Hd' & Haddr & _).
  by apply (Hsole _ _ Hd').
Qed.

(** X11.  Set and clear undo each other.  On a state with a sound index,
    storing an object the caller alone owns under an absent key with
    [setContextDataIfAbsent] and then clearing the key gives back the
    state as it was, map and callback set; an object with a callback got
    one [onSet] and then one [onUnset]. *)
Theorem set_then_clear_round_trip st logged val data :
  index_ok st → requestData_ st !! val = None → sole_owner data st →
  let r := setContextDataIfAbsent st logged val data in
  returned r = true ∧
  (clearContextData (state_after r) val).1 = st ∧
  callbacks (trace r ++ (clearContextData (state_after r) val).2)
  = match data with
    | Some d =>
        if hasCallback d then [OnSet (addr d); OnUnset (addr d)] else []
    | None => []
    end.
Proof.
  intros Hok E Hsole r. subst r. unfold setContextDataIfAbsent.
  rewrite doSetContextData_absent, destroyParameter_released by done.
  cbn [returned state_after trace].
  split; [done|].
  unfold clearContextData.
  rewrite install_requestData, lookup_insert_eq, delete_insert_id by done.
  rewrite install_callbackData.
  unfold install. rewrite E.
  destruct data as [d|]; simpl.
  - destruct (hasCallback d) eqn:Hd; simpl.
    + rewrite set_erase_insert;
        [|apply Hok|by apply sole_owner_not_indexed].
      by destruct st.
    + by destruct st.
  - by destruct st.
Qed.

Lemma set_then_clear_round_trip_witness :
  let d := {| addr := 1%positive; hasCallback := true |} in
  let r := setContextDataIfAbsent emptyState 0 "k" (Some d) in
  (requestData_ emptyState !! "k"%string = None ∧
   sole_owner (Some d) emptyState) ∧
  returned r = true ∧
  (clearContextData (state_after r) "k").1 = emptyState ∧
  callbacks (trace r ++ (clearContextData (state_after r) "k").2)
  = [OnSet 1%positive; OnUnset 1%positive].
Proof.
  intros d r.
  assert (sole_owner (Some d) emptyState) as Hsole.
  { intros val d' Hd'. unfold holds in Hd'. simpl in Hd'.
    rewrite lookup_empty in Hd'. discriminate. }
  split; [by split|].
  exact (set_then_clear_round_trip emptyState 0 "k" (Some d)
           index_ok_empty eq_refl Hsole).
Defined.

End store_round_trip.

(** ** The store and the counters *)

Section store_counted.
Implicit Types (st : State) (val : string) (data old : handle).
Implicit Types (h : gmap ptr KeepAlive.object).

(** An object after one decrement through [DestructPtr]. *)
Lemma replay_dec h p o t :
  h !! p = Some o → (1 ≤ KeepAlive.keepAliveCounter_ o)%Z →
  replay h (KeepAliveDec p :: t)
  = replay (<[p := {| KeepAlive.keepAliveCounter_ :=
                        (KeepAlive.keepAliveCounter_ o - 1)%Z;
                      KeepAlive.deleted :=
                        if (KeepAlive.keepAliveCounter_ o =? 1)%Z
                        then S (KeepAlive.deleted o)
                        else KeepAlive.deleted o |}]> h) t.
Proof.
  intros Hp Ho. cbn [replay replay_event]. rewrite Hp. cbn.
  unfold KeepAlive.DestructPtr, KeepAlive.fetch_sub.
  destruct (Z.gtb_spec (KeepAlive.keepAliveCounter_ o) 0); [|lia].
  by destruct (KeepAlive.keepAliveCounter_ o =? 1)%Z.
Qed.

Lemma replay_inc h p o t :
  h !! p = Some o → (0 ≤ KeepAlive.keepAliveCounter_ o)%Z →
  replay h (KeepAliveInc p :: t) = replay (<[p := acquired 1 o]> h) t.
Proof.
  intros Hp Ho. cbn [replay replay_event]. rewrite Hp. cbn.
  unfold KeepAlive.constructPtr, KeepAlive.fetch_add.
  by destruct (Z.geb_spec (KeepAlive.keepAliveCounter_ o) 0); [|lia].
Qed.

Lemma replay_callback h e t :
  is_callback e = true → replay h (e :: t) = replay h t.
Proof. by destruct e. Qed.

Lemma replay_Warning h val t : replay h (Warning val :: t) = replay h t.
Proof. done. Qed.

(** Releasing the entry under [val]: the traces of [unsetExisting] and of
    [clearContextData] are a callback, if any, and the release. *)
Lemma replay_release st h val old ev :
  index_ok st → counted st h →
  requestData_ st !! val = Some old →
  Forall (λ e, is_callback e = true) ev →
  ∃ h', replay h (ev ++ DestructPtr old) = Some h' ∧
        (∀ val' d', val' ≠ val → holds st val' d' →
           h' !! addr d' = h !! addr d') ∧
        (∀ q, (∀ d, old = Some d → addr d ≠ q) → h' !! q = h !! q) ∧
        (∀ d o, old = Some d → h !! addr d = Some o →
           h' !! addr d
           = Some {| KeepAlive.keepAliveCounter_ :=
                       (KeepAlive.keepAliveCounter_ o - 1)%Z;
                     KeepAlive.deleted :=
                       if (KeepAlive.keepAliveCounter_ o =? 1)%Z
                       then S (KeepAlive.deleted o)
                       else KeepAlive.deleted o |}).
Proof.
  intros Hok Hcnt E Hev.
  assert (replay h (ev ++ DestructPtr old) = replay h (DestructPtr old))
    as ->.
  { induction Hev as [|e ev He _ IH]; [done|].
    rewrite <- app_comm_cons. by rewrite replay_callback. }
  destruct old as [d|]; cbn [DestructPtr].
  - destruct (Hcnt val d E) as (o & Ho & Hpos).
    rewrite (replay_dec h (addr d) o []) by done. cbn [replay].
    eexists. split; [done|]. split_and!.
    + intros val' d' Hne Hd'. rewrite lookup_insert_ne; [done|].
      intros Heq. by destruct (index_unique _ Hok val val' d d' E Hd' Heq).
    + intros q Hq. rewrite lookup_insert_ne; [done|]. by apply Hq.
    + intros d0 o0 [= <-] Ho0. rewrite Ho in Ho0. injection Ho0 as <-.
      by rewrite lookup_insert_eq.
  - exists h. split_and!; done.
Qed.

Lemma unsetExisting_trace st val old :
  ∃ ev, (unsetExisting st val old).2 = ev ++ DestructPtr old ∧
        Forall (λ e, is_callback e = true) ev.
Proof.
  destruct old as [x|]; simpl.
  - destruct (hasCallback x); simpl.
    + exists [OnUnset (addr x)]. split; [done|]. by constructor.
    + by exists [].
  - by exists [].
Qed.

Lemma counted_unsetExisting st h val old :
  index_ok st → counted st h → requestData_ st !! val = Some old →
  ∃ h', replay h (unsetExisting st val old).2 = Some h' ∧
        counted (unsetExisting st val old).1 h' ∧
        ∀ q, (∀ d, old = Some d → addr d ≠ q) → h' !! q = h !! q.
Proof.
  intros Hok Hcnt E.
  destruct (unsetExisting_trace st val old) as (ev & -> & Hev).
  destruct (replay_release st h val old ev Hok Hcnt E Hev)
    as (h' & Hrun & Hframe & Hother & _).
  exists h'. split_and!; [done| |done].
  intros val' d' Hd'. apply holds_unsetExisting in Hd' as [Hne Hd']; [|done].
  rewrite (Hframe val' d' Hne Hd'). by apply (Hcnt val').
Qed.

Lemma install_trace st val data :
  requestData_ st !! val = None ∨ requestData_ st !! val = Some None →
  ∃ ev, (install st val data).2 = ev ++ (constructPtr data).2 ∧
        Forall (λ e, is_callback e = true) ev.
Proof.
  intros Hslot.
  assert (DestructPtr (default None (requestData_ st !! val)) = []) as Hnull.
  { by destruct Hslot as [-> | ->]. }
  unfold install. rewrite Hnull.
  destruct data as [d|]; [destruct (hasCallback d)|]; simpl.
  - exists [OnSet (addr d)]. split; [done|]. by constructor.
  - by exists [].
  - by exists [].
Qed.

Lemma counted_install st h val data :
  (∀ d', ¬ holds st val d') →
  requestData_ st !! val = None ∨ requestData_ st !! val = Some None →
  sole_owner data st → counted st h →
  (∀ d, data = Some d →
     ∃ o, h !! addr d = Some o ∧ (0 ≤ KeepAlive.keepAliveCounter_ o)%Z) →
  ∃ h', replay h (install st val data).2 = Some h' ∧
        counted (install st val data).1 h'.
Proof.
  intros Hfree Hslot Hsole Hcnt Hdata.
  destruct (install_trace st val data Hslot) as (ev & -> & Hev).
  assert (replay h (ev ++ (constructPtr data).2)
          = replay h (constructPtr data).2) as ->.
  { induction Hev as [|e ev He _ IH]; [done|].
    rewrite <- app_comm_cons. by rewrite replay_callback. }
  pose proof (holds_install st val data) as Hholds.
  destruct data as [d|]; cbn [constructPtr snd].
  - destruct (Hdata d eq_refl) as (o & Ho & Hpos).
    exists (<[addr d := acquired 1 o]> h). split.
    + by rewrite (replay_inc h (addr d) o []).
    + intros val' d' Hd'. apply Hholds in Hd'; [|done].
      destruct Hd' as [[-> [= <-]]|Hold].
      * rewrite lookup_insert_eq. eexists. split; [done|]. simpl. lia.
      * rewrite lookup_insert_ne by (intros Heq; by apply (Hsole _ _ Hold)).
        by apply (Hcnt val').
  - exists h. split; [done|].
    intros val' d' Hd'. apply Hholds in Hd'; [|done].
    destruct Hd' as [[_ ?]|Hold]; [done|]. by apply (Hcnt val').
Qed.

(** X12.  The store keeps its references counted.  On a state with a
    sound index whose stored objects all have a counter of at least one,
    a call of [doSetContextData] with an object that the caller alone
    owns and whose counter is not negative passes every [DCHECK] of
    [constructPtr] and [DestructPtr], and afterwards every stored object
    again has a counter of at least one. *)
Theorem doSetContextData_counted st h logged val data behaviour :
  index_ok st → sole_owner data st → counted st h →
  (∀ d, data = Some d →
     ∃ o, h !! addr d = Some o ∧ (0 ≤ KeepAlive.keepAliveCounter_ o)%Z) →
  let r := doSetContextData st logged val data behaviour in
  ∃ h', replay h (trace r) = Some h' ∧ counted (state_after r) h'.
Proof.
  intros Hok Hsole Hcnt Hdata r. subst r.
  unfold doSetContextData.
  destruct (requestData_ st !! val) as [old|] eqn:E.
  - destruct (counted_unsetExisting st h val old Hok Hcnt E)
      as (h1 & Hrun1 & Hcnt1 & Hother).
    pose proof (holds_unsetExisting st val old) as Hholds.
    pose proof (unsetExisting_requestData st val old E) as Hreq.
    destruct (unsetExisting st val old) as [st1 ev1]. simpl in *.
    destruct behaviour; simpl.
    + unfold LOG_FIRST_N_1. destruct (decide (logged = 0)); simpl;
        rewrite ?replay_Warning; eauto.
    + eauto.
    + destruct (counted_install st1 h1 val data) as (h2 & Hrun2 & Hcnt2).
      * intros d' Hd'. apply Hholds in Hd'; naive_solver.
      * right. by rewrite Hreq, lookup_insert_eq.
      * destruct data as [d|]; [|done]. simpl in *.
        intros val' d' Hd'. apply Hholds in Hd' as [_ Hd']; [|done].
        by eapply Hsole.
      * done.
      * intros d ->. rewrite Hother; [by apply Hdata|].
        intros x ->. simpl in Hsole. by apply (Hsole _ _ E).
      * destruct (install st1 val data) as [st2 ev2]. simpl in *.
        exists h2. split; [|done].
        by rewrite replay_app, Hrun1.
  - destruct (counted_install st h val data) as (h2 & Hrun2 & Hcnt2);
      try done.
    + intros d' Hd'. unfold holds in Hd'. congruence.
    + by left.
    + destruct (install st val data) as [st2 ev2]. eauto.
Qed.

Lemma doSetContextData_counted_witness :
  let X := {| addr := 1%positive; hasCallback := true |} in
  let h : gmap ptr KeepAlive.object := {[ 1%positive := KeepAlive.constructed ]} in
  let r := doSetContextData emptyState 0 "k" (Some X) OVERWRITE in
  (index_ok emptyState ∧ sole_owner (Some X) emptyState ∧
   counted emptyState h) ∧
  ∃ h', replay h (trace r) = Some h' ∧ counted (state_after r) h'.
Proof.
  intros X h r.
  assert (sole_owner (Some X) emptyState) as Hsole.
  { intros val d' Hd'. unfold holds in Hd'. simpl in Hd'.
    rewrite lookup_empty in Hd'. discriminate. }
  assert (counted emptyState h) as Hcnt.
  { intros val d' Hd'. unfold holds in Hd'. simpl in Hd'.
    rewrite lookup_empty in Hd'. discriminate. }
  split; [split_and!; [apply index_ok_empty|exact Hsole|exact Hcnt]|].
  apply (doSetContextData_counted emptyState h 0 "k" (Some X) OVERWRITE
           index_ok_empty Hsole Hcnt).
  intros d Hd. injection Hd as <-. exists KeepAlive.constructed.
  split; [reflexivity|]. vm_compute. discriminate.
Defined.

Lemma holds_clearContextData st val val' d :
  holds (clearContextData st val).1 val' d ↔ val' ≠ val ∧ holds st val' d.
Proof.
  unfold holds, clearContextData.
  destruct (requestData_ st !! val) as [old|] eqn:E.
  - assert (requestData_
              (let '(cb, ev) :=
                 match old with
                 | Some o =>
                     if hasCallback o
                     then (set_erase (addr o) (callbackData_ st),
                           [OnUnset (addr o)])
                     else (callbackData_ st, [])
                 | None => (callbackData_ st, [])
                 end in
               ({| requestData_ := delete val (requestData_ st);
                   callbackData_ := cb |}, ev ++ DestructPtr old)).1
            = delete val (requestData_ st)) as ->.
    { destruct old as [o|]; [destruct (hasCallback o)|]; done. }
    destruct (decide (val' = val)) as [->|Hne].
    + rewrite lookup_delete_eq. naive_solver.
    + rewrite lookup_delete_ne by done. naive_solver.
  - simpl. split; [|naive_solver]. intros Hd. split; [|done].
    intros ->. congruence.
Qed.

Lemma clearContextData_trace st val old :
  requestData_ st !! val = Some old →
  ∃ ev, (clearContextData st val).2 = ev ++ DestructPtr old ∧
        Forall (λ e, is_callback e = true) ev.
Proof.
  intros E. unfold clearContextData. rewrite E.
  destruct old as [x|]; simpl.
  - destruct (hasCallback x); simpl.
    + exists [OnUnset (addr x)]. split; [done|]. by constructor.
    + by exists [].
  - by exists [].
Qed.

(** X13.  Clearing releases one reference.  On a state with a sound index
    whose stored objects all have a counter of at least one,
    [clearContextData] passes the [DCHECK] of [DestructPtr]; the counter
    of the removed object goes down by one and the object is deleted
    exactly when that was its last reference; no other object is touched,
    and the objects that remain stored keep a counter of at least one. *)
Theorem clearContextData_counted st h val :
  index_ok st → counted st h →
  ∃ h', replay h (clearContextData st val).2 = Some h' ∧
        counted (clearContextData st val).1 h' ∧
        (∀ d o, holds st val d → h !! addr d = Some o →
           h' !! addr d
           = Some {| KeepAlive.keepAliveCounter_ :=
                       (KeepAlive.keepAliveCounter_ o - 1)%Z;
                     KeepAlive.deleted :=
                       if (KeepAlive.keepAliveCounter_ o =? 1)%Z
                       then S (KeepAlive.deleted o)
                       else KeepAlive.deleted o |}) ∧
        (∀ q, (∀ d, holds st val d → addr d ≠ q) → h' !! q = h !! q).
Proof.
  intros Hok Hcnt.
  destruct (requestData_ st !! val) as [old|] eqn:E.
  - destruct (clearContextData_trace st val old E) as (ev & Htrace & Hev).
    destruct (replay_release st h val old ev Hok Hcnt E Hev)
      as (h' & Hrun & Hframe & Hother & Hrel).
    exists h'. rewrite Htrace. split_and!; [done| | |].
    + intros val' d' Hd'. apply holds_clearContextData in Hd' as [Hne Hd'].
      rewrite (Hframe val' d' Hne Hd'). by apply (Hcnt val').
    + intros d o Hd Ho. apply (Hrel d o); [|done].
      unfold holds in Hd. congruence.
    + intros q Hq. apply Hother. intros d ->. by apply Hq.
  - rewrite clearContextData_absent by done. exists h.
    split_and!; [done|done| |done].
    intros d o Hd. unfold holds in Hd. congruence.
Qed.

Lemma clearContextData_counted_witness :
  let X := {| addr := 1%positive; hasCallback := true |} in
  let st := {| requestData_ := {[ "k"%string := Some X ]};
               callbackData_ := [1%positive] |} in
  let h : gmap ptr KeepAlive.object :=
    {[ 1%positive := {| KeepAlive.keepAliveCounter_ := 1;
                        KeepAlive.deleted := 0 |} ]} in
  (index_ok st ∧ counted st h) ∧
  ∃ h', replay h (clearContextData st "k").2 = Some h' ∧
        h' !! 1%positive
        = Some {| KeepAlive.keepAliveCounter_ := 0;
                  KeepAlive.deleted := 1 |}.
Proof.
  intros X st h.
  assert (∀ val d, holds st val d → val = "k"%string ∧ d = X) as Hk.
  { intros val d Hd. unfold holds in Hd. simpl in Hd.
    apply lookup_singleton_Some in Hd as [<- [= <-]]. done. }
  assert (index_ok st) as Hok.
  { split.
    - repeat constructor.
    - intros p. simpl. rewrite list_elem_of_singleton. split.
      + intros ->. exists "k"%string, X. done.
      + intros (val & d & Hd & <- & _). by destruct (Hk _ _ Hd) as [_ ->].
    - intros val1 val2 d1 d2 H1 H2 _.
      destruct (Hk _ _ H1) as [-> ->], (Hk _ _ H2) as [-> ->]. done. }
  assert (counted st h) as Hcnt.
  { intros val d Hd. destruct (Hk _ _ Hd) as [-> ->].
    eexists. split; [reflexivity|]. simpl. lia. }
  split; [split; [exact Hok|exact Hcnt]|].
  destruct (clearContextData_counted st h "k" Hok Hcnt)
    as (h' & Hrun & _ & Hrel & _).
  exists h'. split; [exact Hrun|].
  exact (Hrel X _ eq_refl eq_refl).
Defined.

End store_counted.

(** ** Sequences of calls *)

Section call_sequences.
Implicit Types (st : State) (val : string) (data old : handle).

Lemma warnings_app (t1 t2 : list event) :
  warnings (t1 ++ t2) = warnings t1 + warnings t2.
Proof. unfold warnings. by rewrite List.filter_app, length_app. Qed.

Lemma warnings_unsetExisting st val old :
  warnings (unsetExisting st val old).2 = 0.
Proof. destruct old as [x|]; [simpl; destruct (hasCallback x)|]; done. Qed.

Lemma warnings_install st val data :
  warnings (install st val data).2 = 0.
Proof.
  unfold install.
  destruct data as [d|]; [destruct (hasCallback d)|]; simpl;
    by destruct (default None (requestData_ st !! val)).
Qed.

Lemma warnings_clearContextData st val :
  warnings (clearContextData st val).2 = 0.
Proof.
  unfold clearContextData.
  destruct (requestData_ st !! val) as [[x|]|]; [simpl|done..].
  by destruct (hasCallback x).
Qed.

Lemma warnings_doSetContextData st logged val data behaviour :
  let r := doSetContextData st logged val data behaviour in
  logged ≤ logged_after r ∧
  warnings (trace r)
  = if decide (logged = 0 ∧ logged_after r ≠ 0) then 1 else 0.
Proof.
  unfold doSetContextData.
  destruct (requestData_ st !! val) as [old|].
  - pose proof (warnings_unsetExisting st val old) as H1.
    destruct (unsetExisting st val old) as [st1 ev1].
    pose proof (warnings_install st1 val data) as H2.
    destruct (install st1 val data) as [st2 ev2]. simpl in *.
    destruct behaviour; simpl.
    + rewrite warnings_app, H1. split; [lia|].
      destruct (decide (logged = 0)) as [->|].
      * by rewrite decide_True.
      * by rewrite decide_False by naive_solver.
    + split; [done|]. by rewrite decide_False by naive_solver.
    + rewrite warnings_app, H1, H2. split; [done|].
      by rewrite decide_False by naive_solver.
  - pose proof (warnings_install st val data) as H2.
    destruct (install st val data) as [st2 ev2]. simpl in *.
    split; [done|]. by rewrite decide_False by naive_solver.
Qed.

Lemma warnings_destroyParameter (r : DoSetResult) :
  warnings (trace (destroyParameter r)) = warnings (trace r).
Proof.
  unfold destroyParameter. cbn [trace]. rewrite warnings_app.
  destruct (data_after r); unfold warnings; simpl; lia.
Qed.

Lemma warnings_call st logged c :
  logged ≤ (call st logged c).1.2 ∧
  warnings (call st logged c).2
  = if decide (logged = 0 ∧ (call st logged c).1.2 ≠ 0) then 1 else 0.
Proof.
  destruct c as [val data|val data|val data|val]; cbn [call fst snd];
    unfold setContextData, setContextDataIfAbsent, overwriteContextData;
    rewrite ?warnings_destroyParameter;
    try apply warnings_doSetContextData.
  pose proof (warnings_clearContextData st val) as H.
  destruct (clearContextData st val) as [st' ev]. simpl in *.
  split; [done|]. by rewrite decide_False by naive_solver.
Qed.

(** X14.  The advisory is logged once.  Over any sequence of calls on a
    store the count of the advisory never goes down, and the advisory of
    [setContextData] is logged exactly when the sequence reaches it for
    the first time: once if the count was zero before and is not zero
    after, and not at all otherwise. *)
Theorem calls_warn_once st logged cs :
  logged ≤ (calls st logged cs).1.2 ∧
  warnings (calls st logged cs).2
  = if decide (logged = 0 ∧ (calls st logged cs).1.2 ≠ 0) then 1 else 0.
Proof.
  revert st logged. induction cs as [|c cs IH]; intros st logged.
  - simpl. split; [done|]. by rewrite decide_False by naive_solver.
  - cbn [calls].
    pose proof (warnings_call st logged c) as [Hle1 Hw1].
    destruct (call st logged c) as [[st1 logged1] ev1]. simpl in Hle1, Hw1.
    pose proof (IH st1 logged1) as [Hle2 Hw2].
    destruct (calls st1 logged1 cs) as [[st2 logged2] ev2].
    simpl in *. rewrite warnings_app, Hw1, Hw2. split; [lia|].
    repeat case_decide; lia.
Qed.

End call_sequences.

Section callback_balance.
Implicit Types (st : State) (val : string) (data old : handle).
Implicit Types (p x : ptr) (s : list ptr).

Lemma occurrences_cons (e e' : event) t :
  occurrences e (e' :: t)
  = (if decide (e' = e) then 1 else 0) + occurrences e t.
Proof.
  unfold occurrences. simpl. destruct (decide (e' = e)).
  - by rewrite bool_decide_eq_true_2.
  - by rewrite bool_decide_eq_false_2.
Qed.

Lemma occurrences_DestructPtr (e : event) old :
  is_callback e = true → occurrences e (DestructPtr old) = 0.
Proof.
  intros He. destruct old as [d|]; [|done]. simpl.
  rewrite occurrences_cons, decide_False; [done|]. by intros <-.
Qed.

Lemma occurrences_constructPtr (e : event) data :
  is_callback e = true → occurrences e (constructPtr data).2 = 0.
Proof.
  intros He. destruct data as [d|]; [|done]. simpl.
  rewrite occurrences_cons, decide_False; [done|]. by intros <-.
Qed.

Lemma indexed_erase s x p :
  is_set s → x ∈ s →
  indexed s p = (if decide (x = p) then 1 else 0) + indexed (set_erase x s) p.
Proof.
  intros Hs Hx. unfold indexed.
  destruct (decide (x = p)) as [->|Hne].
  - rewrite decide_True by done.
    rewrite decide_False; [done|]. rewrite elem_of_set_erase by done.
    naive_solver.
  - apply (f_equal (λ n, 0 + n)), decide_ext.
    rewrite elem_of_set_erase by done. naive_solver.
Qed.

Lemma indexed_insert s x p :
  x ∉ s →
  indexed (set_insert x s) p = (if decide (x = p) then 1 else 0) + indexed s p.
Proof.
  intros Hx. unfold indexed.
  destruct (decide (x = p)) as [->|Hne].
  - rewrite decide_True by (apply elem_of_set_insert; by left).
    by rewrite decide_False.
  - apply (f_equal (λ n, 0 + n)), decide_ext.
    rewrite elem_of_set_insert. naive_solver.
Qed.

(** What goes into the callback set has had one more [onSet] than
    [onUnset]: the balance of one removal. *)
Lemma balance_removed st val old p :
  index_ok st → requestData_ st !! val = Some old →
  let '(cb, ev) :=
    match old with
    | Some o =>
        if hasCallback o
        then (set_erase (addr o) (callbackData_ st), [OnUnset (addr o)])
        else (callbackData_ st, [])
    | None => (callbackData_ st, [])
    end in
  occurrences (OnSet p) (ev ++ DestructPtr old)
    + indexed (callbackData_ st) p
  = occurrences (OnUnset p) (ev ++ DestructPtr old) + indexed cb p.
Proof.
  intros Hok E.
  destruct old as [o|]; [destruct (hasCallback o) eqn:Ho|];
    rewrite !occurrences_app, !occurrences_DestructPtr by done;
    rewrite ?occurrences_cons, ?occurrences_nil; try done.
  rewrite (indexed_erase _ (addr o) p).
  - rewrite decide_False by done.
    destruct (decide (addr o = p)) as [->|Hne].
    + rewrite decide_True by done. lia.
    + rewrite decide_False; [lia|]. by intros [= ?].
  - apply Hok.
  - apply (index_exact _ Hok). by exists val, o.
Qed.

Lemma balance_unsetExisting st val old p :
  index_ok st → requestData_ st !! val = Some old →
  occurrences (OnSet p) (unsetExisting st val old).2
    + indexed (callbackData_ st) p
  = occurrences (OnUnset p) (unsetExisting st val old).2
    + indexed (callbackData_ (unsetExisting st val old).1) p.
Proof.
  intros Hok E. pose proof (balance_removed st val old p Hok E) as H.
  destruct old as [o|]; [|done]. simpl in *.
  by destruct (hasCallback o).
Qed.

Lemma balance_clearContextData st val p :
  index_ok st →
  occurrences (OnSet p) (clearContextData st val).2
    + indexed (callbackData_ st) p
  = occurrences (OnUnset p) (clearContextData st val).2
    + indexed (callbackData_ (clearContextData st val).1) p.
Proof.
  intros Hok. unfold clearContextData.
  destruct (requestData_ st !! val) as [old|] eqn:E; [|done].
  pose proof (balance_removed st val old p Hok E) as H.
  destruct old as [o|]; [|done]. simpl in *.
  by destruct (hasCallback o).
Qed.

Lemma balance_install st val data p :
  index_ok st → sole_owner data st →
  occurrences (OnSet p) (install st val data).2
    + indexed (callbackData_ st) p
  = occurrences (OnUnset p) (install st val data).2
    + indexed (callbackData_ (install st val data).1) p.
Proof.
  intros Hok Hsole. rewrite install_callbackData. unfold install.
  destruct data as [d|]; [destruct (hasCallback d) eqn:Hd|];
    cbn [constructPtr snd app];
    rewrite ?occurrences_cons, ?occurrences_DestructPtr by done.
  - rewrite indexed_insert by by apply sole_owner_not_indexed.
    rewrite (decide_False (P := OnSet (addr d) = OnUnset p)) by done.
    rewrite !(decide_False (P := KeepAliveInc (addr d) = _)) by done.
    destruct (decide (addr d = p)) as [->|Hne].
    + rewrite decide_True by done. lia.
    + rewrite decide_False; [lia|]. by intros [= ?].
  - by rewrite !(decide_False (P := KeepAliveInc (addr d) = _)) by done.
  - done.
Qed.

Lemma occurrences_LOG_FIRST_N_1 (e : event) logged val :
  is_callback e = true → occurrences e (LOG_FIRST_N_1 logged val).2 = 0.
Proof.
  intros He. unfold LOG_FIRST_N_1. simpl.
  destruct (decide (logged = 0)); [|done].
  rewrite occurrences_cons, decide_False; [done|]. by intros <-.
Qed.

Lemma balance_doSetContextData st logged val data behaviour p :
  index_ok st → sole_owner data st →
  let r := doSetContextData st logged val data behaviour in
  occurrences (OnSet p) (trace r) + indexed (callbackData_ st) p
  = occurrences (OnUnset p) (trace r)
    + indexed (callbackData_ (state_after r)) p.
Proof.
  intros Hok Hsole. unfold doSetContextData.
  destruct (requestData_ st !! val) as [old|] eqn:E.
  - pose proof (balance_unsetExisting st val old p Hok E) as H1.
    pose proof (index_ok_unsetExisting st val old Hok E) as Hok1.
    pose proof (holds_unsetExisting st val old) as Hholds.
    destruct (unsetExisting st val old) as [st1 ev1]. simpl in *.
    destruct behaviour; simpl.
    + pose proof (occurrences_LOG_FIRST_N_1 (OnSet p) logged val eq_refl)
        as Hw1.
      pose proof (occurrences_LOG_FIRST_N_1 (OnUnset p) logged val eq_refl)
        as Hw2.
      unfold LOG_FIRST_N_1 in *. simpl in *.
      rewrite !occurrences_app. lia.
    + done.
    + assert (sole_owner data st1) as Hsole1.
      { destruct data as [d|]; [|done]. simpl in *.
        intros val' d' Hd'. apply Hholds in Hd' as [_ Hd']; [|done].
        by eapply Hsole. }
      pose proof (balance_install st1 val data p Hok1 Hsole1) as H2.
      destruct (install st1 val data) as [st2 ev2]. simpl in *.
      rewrite !occurrences_app. lia.
  - pose proof (balance_install st val data p Hok Hsole) as H2.
    by destruct (install st val data) as [st2 ev2].
Qed.

Lemma balance_call st logged c p :
  index_ok st → sole_owner (argument c) st →
  index_ok (call st logged c).1.1 ∧
  occurrences (OnSet p) (call st logged c).2 + indexed (callbackData_ st) p
  = occurrences (OnUnset p) (call st logged c).2
    + indexed (callbackData_ (call st logged c).1.1) p.
Proof.
  intros Hok Hsole.
  assert (∀ (e : event) (r : DoSetResult), is_callback e = true →
            occurrences e (trace (destroyParameter r))
            = occurrences e (trace r)) as Hdel.
  { intros e r He. unfold destroyParameter. cbn [trace].
    rewrite occurrences_app. destruct (data_after r) as [d|]; [|done].
    rewrite occurrences_cons, decide_False; [done|]. by intros <-. }
  destruct c as [val data|val data|val data|val]; cbn [call fst snd argument] in *;
    unfold setContextData, setContextDataIfAbsent, overwriteContextData;
    rewrite ?Hdel by done.
  - split; [by apply index_ok_doSetContextData|].
    by apply balance_doSetContextData.
  - split; [by apply index_ok_doSetContextData|].
    by apply balance_doSetContextData.
  - split; [by apply index_ok_doSetContextData|].
    by apply balance_doSetContextData.
  - pose proof (index_ok_clear st val Hok) as Hok1.
    pose proof (balance_clearContextData st val p Hok) as H.
    by destruct (clearContextData st val).
Qed.

(** X15.  Callbacks come in pairs.  Over any sequence of calls of the
    four mutators on a state with a sound index, every argument being
    owned by the caller alone, each object has received as many [onSet]
    as [onUnset] calls, plus one if it entered the callback set and minus
    one if it left it; the index stays sound.  From the empty store: an
    object in the callback set has had exactly one more [onSet] than
    [onUnset], and every other object as many of the one as of the
    other. *)
Theorem calls_callbacks_balanced st logged cs :
  index_ok st → owned st logged cs →
  index_ok (calls st logged cs).1.1 ∧
  ∀ p, occurrences (OnSet p) (calls st logged cs).2
         + indexed (callbackData_ st) p
       = occurrences (OnUnset p) (calls st logged cs).2
         + indexed (callbackData_ (calls st logged cs).1.1) p.
Proof.
  revert st logged. induction cs as [|c cs IH]; intros st logged Hok Hown.
  - simpl. split; [done|]. intros p. done.
  - destruct Hown as [Hsole Hown]. cbn [calls].
    assert (index_ok (call st logged c).1.1) as Hok1.
    { by apply (balance_call st logged c 1%positive). }
    pose proof (λ p, proj2 (balance_call st logged c p Hok Hsole)) as H1.
    destruct (call st logged c) as [[st1 logged1] ev1]. simpl in *.
    destruct (IH st1 logged1 Hok1 Hown) as [Hok2 H2].
    destruct (calls st1 logged1 cs) as [[st2 logged2] ev2]. simpl in *.
    split; [done|]. intros p. rewrite !occurrences_app.
    specialize (H1 p). specialize (H2 p). lia.
Qed.

Lemma calls_callbacks_balanced_witness :
  let X := {| addr := 1%positive; hasCallback := true |} in
  let cs := [CallSetIfAbsent "k" (Some X); CallSet "k" None; CallClear "k"] in
  owned emptyState 0 cs ∧
  ∀ p, occurrences (OnSet p) (calls emptyState 0 cs).2
         + indexed (callbackData_ emptyState) p
       = occurrences (OnUnset p) (calls emptyState 0 cs).2
         + indexed (callbackData_ (calls emptyState 0 cs).1.1) p.
Proof.
  intros X cs.
  assert (owned emptyState 0 cs) as Hown.
  { split; [|by repeat split].
    intros val d' Hd'. unfold holds in Hd'. simpl in Hd'.
    rewrite lookup_empty in Hd'. discriminate. }
  split; [exact Hown|].
  exact (proj2 (calls_callbacks_balanced emptyState 0 cs index_ok_empty Hown)).
Defined.

End callback_balance.

(** ** Reading back, and the frame of a shallow copy *)

Section read_back.
Implicit Types (st : State) (val : string) (data : handle) (w : World).

(** X16.  Reading back what was written.  After
    [overwriteContextData] the key reads as the data written, whatever was
    there; after [setContextDataIfAbsent] it reads as the data written if
    the key was absent and as before otherwise; after [setContextData] it
    reads as the data written if the key was absent and as null otherwise. *)
Theorem get_after_set st logged val data :
  getContextData (state_after (overwriteContextData st logged val data)) val
  = data ∧
  getContextData (state_after (setContextDataIfAbsent st logged val data)) val
  = (if hasContextData st val then getContextData st val else data) ∧
  getContextData (state_after (setContextData st logged val data)) val
  = (if hasContextData st val then None else data).
Proof.
  unfold overwriteContextData, setContextDataIfAbsent, setContextData.
  unfold getContextData, get_ref_default, hasContextData, destroyParameter.
  cbn [state_after]. rewrite !doSetContextData_requestData.
  destruct (requestData_ st !! val) as [old|] eqn:E.
  - rewrite bool_decide_eq_true_2 by eauto.
    by rewrite !lookup_insert_eq, E.
  - rewrite bool_decide_eq_false_2 by (by intros [? ?]).
    by rewrite !lookup_insert_eq.
Qed.

(** X17.  [setShallowCopyContext] succeeds whenever the context in the
    slot, if any, exists.  It returns what the slot held, puts into the
    slot a context that did not exist before, and leaves every existing
    context as it was; with an empty slot the child is empty and nothing
    is acquired. *)
Theorem setShallowCopyContext_frame w :
  (∀ n, getStaticContext w = Some n → is_Some (contexts w !! n)) →
  ∃ child cs ev,
    setShallowCopyContext w
    = Some (getStaticContext w,
            {| contexts := <[child := cs]> (contexts w);
               staticCtx := Some child;
               defaultContext := defaultContext w |},
            ev) ∧
    contexts w !! child = None ∧
    (∀ n, n ≠ child →
       <[child := cs]> (contexts w) !! n = contexts w !! n) ∧
    match getStaticContext w with
    | Some p => contexts w !! p = Some cs
    | None => cs = emptyState ∧ ev = []
    end.
Proof.
  intros Hvalid.
  pose proof (is_fresh (dom (contexts w))) as Hfresh.
  rewrite not_elem_of_dom in Hfresh.
  unfold setShallowCopyContext.
  destruct (getStaticContext w) as [p|] eqn:Hcur.
  - destruct (Hvalid p eq_refl) as [ps Hp]. rewrite Hp. simpl.
    pose proof (shallowCopy_state ps) as Hst.
    destruct (shallowCopy ps) as [cs ev]. simpl in *. subst cs.
    eexists _, _, _. split; [done|]. split; [done|]. split; [|done].
    intros n Hn. by rewrite lookup_insert_ne.
  - simpl. eexists _, _, _. split; [done|]. split; [done|]. split; [|done].
    intros n Hn. by rewrite lookup_insert_ne.
Qed.

Lemma setShallowCopyContext_frame_witness :
  let w := {| contexts := {[1%positive := emptyState]};
              staticCtx := Some 1%positive; defaultContext := None |} in
  (∀ n, getStaticContext w = Some n → is_Some (contexts w !! n)) ∧
  ∃ child cs ev,
    setShallowCopyContext w
    = Some (getStaticContext w,
            {| contexts := <[child := cs]> (contexts w);
               staticCtx := Some child;
               defaultContext := defaultContext w |},
            ev) ∧
    contexts w !! child = None ∧
    (∀ n, n ≠ child →
       <[child := cs]> (contexts w) !! n = contexts w !! n) ∧
    match getStaticContext w with
    | Some p => contexts w !! p = Some cs
    | None => cs = emptyState ∧ ev = []
    end.
Proof.
  intros w.
  assert (∀ n, getStaticContext w = Some n → is_Some (contexts w !! n))
    as Hvalid.
  { intros n Hn. injection Hn as <-. eexists. reflexivity. }
  split; [exact Hvalid|].
  exact (setShallowCopyContext_frame w Hvalid).
Defined.

End read_back.
